(** * Neoray: the instance coordinator, the key encoder, the GL buffer
      policy and the API version check, embedded from the Go sources.

    Layout: one module of definitions per source file ([Ipc] for
    src/ipc.go, [Input] for the input callbacks, [RendererGL] for
    cmd/neoray/renderer_gl.go, [NvimProc] for src/nvimproc.go), then the
    theorems about them. *)

From Stdlib Require Import ZArith String Ascii List Bool Lia.
From Corelib Require Import SpecFloat.
From stdpp Require Import base option list gmap strings.

Import ListNotations.
Local Open Scope string_scope.
Local Open Scope list_scope.
Local Open Scope Z_scope.
Set Warnings "-register-all".

(* ===================================================================== *)
(** * Go values held in an [interface{}] *)
(* ===================================================================== *)

Module Go.

(** [float64]: IEEE 754 binary64, as the specification-level floats of
    the standard library (precision 53, infinities at exponent 1024). *)
Definition float64 : Type := spec_float.

Definition float64_prec : Z := 53.
Definition float64_emax : Z := 1024.

(** The float64 nearest to an integer (round to nearest, ties to even),
    which is what [strconv.ParseFloat] yields for an integer literal. *)
Definition float64_of_Z (z : Z) : float64 :=
  binary_normalize float64_prec float64_emax z 0 false.

Definition float64_is_finite (f : float64) : bool :=
  match f with
  | S754_zero _ | S754_finite _ _ _ => true
  | S754_infinity _ | S754_nan => false
  end.

(** Range of [int] (64 bits on the supported platforms) and [uint64]. *)
Definition int_min : Z := - 2 ^ 63.
Definition int_max : Z := 2 ^ 63 - 1.
Definition in_int (z : Z) : bool := (int_min <=? z) && (z <=? int_max).
Definition in_uint64 (z : Z) : bool := (0 <=? z) && (z <? 2 ^ 64).
Definition uint64_wrap (z : Z) : Z := z mod 2 ^ 64.

(** [int(f)] as the amd64 compiler computes it: truncation toward zero,
    and the minimum [int] for NaN, the infinities and whatever lies
    outside the range of [int]. *)
Definition truncate_float64 (f : float64) : Z :=
  match f with
  | S754_zero _ => 0
  | S754_finite s m e =>
      let v := if 0 <=? e then Z.pos m * 2 ^ e else Z.pos m / 2 ^ (- e) in
      let z := if s then - v else v in
      if in_int z then z else int_min
  | S754_infinity _ | S754_nan => int_min
  end.

(** The dynamic values an [interface{}] holds in this program: the six
    forms [encoding/json] decodes into (listed in [IpcServer.update]),
    and [int], which callers pass for line and column numbers.  A map
    is kept as its entries in increasing key order. *)
Inductive value : Type :=
| VNil
| VBool (b : bool)
| VInt (n : Z)
| VFloat64 (f : float64)
| VString (s : string)
| VSlice (l : list value)
| VMap (m : list (string * value)).

(** A slice variable: [None] is the nil slice. *)
Definition slice (A : Type) : Type := option (list A).

Definition slice_len {A} (s : slice A) : Z :=
  match s with None => 0 | Some l => Z.of_nat (length l) end.

(** Why a statement panicked. *)
Inductive panic : Type :=
| IndexOutOfRange
| InterfaceConversion.

(** A statement either panics or yields its result. *)
Inductive outcome (A : Type) : Type :=
| Panics (p : panic)
| Returns (a : A).
Arguments Panics {A} p.
Arguments Returns {A} a.

Definition bind {A B} (o : outcome A) (k : A -> outcome B) : outcome B :=
  match o with
  | Panics p => Panics p
  | Returns a => k a
  end.

Definition panicked {A} (o : outcome A) : bool :=
  match o with Panics _ => true | Returns _ => false end.

(** [s[0]]: panics on a nil or empty slice. *)
Definition index0 {A} (s : slice A) : outcome A :=
  match s with
  | Some (x :: _) => Returns x
  | _ => Panics IndexOutOfRange
  end.

(** [v.(string)] and [v.(float64)], the one-result type assertions. *)
Definition assert_string (v : value) : outcome string :=
  match v with VString s => Returns s | _ => Panics InterfaceConversion end.

Definition assert_float64 (v : value) : outcome float64 :=
  match v with VFloat64 f => Returns f | _ => Panics InterfaceConversion end.

End Go.

(* ===================================================================== *)
(** * encoding/json, as far as [IpcFuncCall] uses it *)
(* ===================================================================== *)

Module Json.
Import Go.

(** A number literal: the one printed for an integer, or the one printed
    for a finite float64, which [strconv] chooses so that parsing it
    gives the same float64 back. *)
Inductive number : Type :=
| NumInt (z : Z)
| NumFloat (f : float64).

(** A JSON document; a string node holds the text it denotes. *)
Inductive json : Type :=
| JNull
| JBool (b : bool)
| JNumber (n : number)
| JString (s : string)
| JArray (l : list json)
| JObject (m : list (string * json)).

(** What one [Read] delivers: a JSON document, or bytes that are none. *)
Inductive payload : Type :=
| Garbage
| Text (j : json).

Definition byte_of (a : ascii) : Z := Z.of_N (N_of_ascii a).

Definition between (lo hi : Z) (a : ascii) : bool :=
  (lo <=? byte_of a) && (byte_of a <=? hi).

Definition is_cont (a : ascii) : bool := between 128 191 a.

(** [utf8.DecodeRuneInString]: the width of the encoding that starts the
    string, [0] when the first byte starts no valid encoding. *)
Definition rune_width (s : string) : nat :=
  match s with
  | EmptyString => 0%nat
  | String b0 r =>
      let x := byte_of b0 in
      if x <? 128 then 1%nat
      else if between 194 223 b0 then
        match r with
        | String b1 _ => if is_cont b1 then 2%nat else 0%nat
        | _ => 0%nat
        end
      else if between 224 239 b0 then
        let lo := if x =? 224 then 160 else 128 in
        let hi := if x =? 237 then 159 else 191 in
        match r with
        | String b1 (String b2 _) =>
            if between lo hi b1 && is_cont b2 then 3%nat else 0%nat
        | _ => 0%nat
        end
      else if between 240 244 b0 then
        let lo := if x =? 240 then 144 else 128 in
        let hi := if x =? 244 then 143 else 191 in
        match r with
        | String b1 (String b2 (String b3 _)) =>
            if between lo hi b1 && is_cont b2 && is_cont b3
            then 4%nat else 0%nat
        | _ => 0%nat
        end
      else 0%nat
  end.

(** U+FFFD in UTF-8. *)
Definition replacement_char : string :=
  String (ascii_of_N 239) (String (ascii_of_N 191) (String (ascii_of_N 189) EmptyString)).

(** The text the encoder writes for a Go string: every byte that starts
    no valid encoding becomes U+FFFD.  [pending] counts the continuation
    bytes of the encoding being copied. *)
Fixpoint coerce_utf8_from (pending : nat) (s : string) : string :=
  match s with
  | EmptyString => EmptyString
  | String b r =>
      match pending with
      | S p => String b (coerce_utf8_from p r)
      | O =>
          match rune_width s with
          | O => String.append replacement_char (coerce_utf8_from 0 r)
          | S k => String b (coerce_utf8_from k r)
          end
      end
  end.

Definition coerce_utf8 (s : string) : string := coerce_utf8_from 0 s.

(** [utf8.ValidString]. *)
Fixpoint valid_utf8_from (pending : nat) (s : string) : bool :=
  match s with
  | EmptyString => true
  | String b r =>
      match pending with
      | S p => valid_utf8_from p r
      | O =>
          match rune_width s with
          | O => false
          | S k => valid_utf8_from k r
          end
      end
  end.

Definition valid_utf8 (s : string) : bool := valid_utf8_from 0 s.

(** A map entry list kept in increasing key order; a key already present
    is overwritten. *)
Fixpoint assoc_insert {A} (k : string) (v : A) (m : list (string * A))
  : list (string * A) :=
  match m with
  | [] => [(k, v)]
  | (k', v') :: rest =>
      match String.compare k k' with
      | Lt => (k, v) :: m
      | Eq => (k, v) :: rest
      | Gt => (k', v') :: assoc_insert k v rest
      end
  end.

Definition assoc_of_list {A} (l : list (string * A)) : list (string * A) :=
  fold_left (fun m kv => assoc_insert (fst kv) (snd kv) m) l [].

(** All results, or the first failure. *)
Fixpoint sequence {A} (l : list (option A)) : option (list A) :=
  match l with
  | [] => Some []
  | None :: _ => None
  | Some x :: r =>
      match sequence r with
      | Some xs => Some (x :: xs)
      | None => None
      end
  end.

Definition sequence_snd {A} (l : list (string * option A))
  : option (list (string * A)) :=
  sequence (map (fun kv => option_map (pair (fst kv)) (snd kv)) l).

(** The encoder on an [interface{}]: NaN and infinities are refused, map
    entries are written in key order. *)
Fixpoint encode_value (v : value) : option json :=
  match v with
  | VNil => Some JNull
  | VBool b => Some (JBool b)
  | VInt n => Some (JNumber (NumInt n))
  | VFloat64 f =>
      if float64_is_finite f then Some (JNumber (NumFloat f)) else None
  | VString s => Some (JString (coerce_utf8 s))
  | VSlice l => option_map JArray (sequence (map encode_value l))
  | VMap m =>
      option_map
        (fun es => JObject (map (fun kv => (coerce_utf8 (fst kv), snd kv))
                              (assoc_of_list es)))
        (sequence_snd
           (map (fun kv => match kv with (k, x) => (k, encode_value x) end) m))
  end.

(** The decoder into an [interface{}]: every number becomes a float64
    (a literal beyond the float64 range is an error), an array becomes a
    [[]interface{}], an object a [map[string]interface{}] in which a
    repeated key keeps its last value. *)
Fixpoint decode_value (j : json) : option value :=
  match j with
  | JNull => Some VNil
  | JBool b => Some (VBool b)
  | JNumber (NumInt z) =>
      let f := float64_of_Z z in
      if float64_is_finite f then Some (VFloat64 f) else None
  | JNumber (NumFloat f) =>
      if float64_is_finite f then Some (VFloat64 f) else None
  | JString s => Some (VString s)
  | JArray l => option_map VSlice (sequence (map decode_value l))
  | JObject m =>
      option_map (fun es => VMap (assoc_of_list es))
        (sequence_snd
           (map (fun kv => match kv with (k, x) => (k, decode_value x) end) m))
  end.

(** The integer a float64's literal denotes when that literal is written
    without fraction and exponent: the float is integral and below 1e21
    in magnitude. *)
Definition float64_int_literal (f : float64) : option Z :=
  match f with
  | S754_zero _ => Some 0
  | S754_finite s m e =>
      let signed (v : Z) := if s then - v else v in
      if 0 <=? e then
        let v := Z.pos m * 2 ^ e in
        if v <? 10 ^ 21 then Some (signed v) else None
      else if Z.pos m mod 2 ^ (- e) =? 0
        then Some (signed (Z.pos m / 2 ^ (- e)))
        else None
  | _ => None
  end.

Definition number_int_literal (n : number) : option Z :=
  match n with
  | NumInt z => Some z
  | NumFloat f => float64_int_literal f
  end.

(** Whether the literal starts with a minus sign. *)
Definition literal_has_sign (n : number) : bool :=
  match n with
  | NumInt z => z <? 0
  | NumFloat (S754_zero s) => s
  | NumFloat (S754_finite s _ _) => s
  | NumFloat _ => false
  end.

(** Decoding into an integer field whose type has the given range and
    whose current content is [cur]: [null] leaves the field alone, and an
    unsigned field takes no literal with a sign. *)
Definition decode_integer (unsigned : bool) (in_range : Z -> bool) (cur : Z)
    (j : json) : option Z :=
  match j with
  | JNull => Some cur
  | JNumber n =>
      if unsigned && literal_has_sign n then None
      else
        match number_int_literal n with
        | Some z => if in_range z then Some z else None
        | None => None
        end
  | _ => None
  end.

(** Decoding into a [[]interface{}] field: [null] makes it nil. *)
Definition decode_slice (j : json) : option (slice value) :=
  match j with
  | JNull => Some None
  | JArray l => option_map Some (sequence (map decode_value l))
  | _ => None
  end.

(** Field names are matched without regard to case: ASCII letters are
    upper-cased, and the two non-ASCII letters that fold onto ASCII ones
    (U+017F onto S, U+212A onto K) with them. *)
Fixpoint fold_name (s : string) : string :=
  match s with
  | EmptyString => EmptyString
  | String a r =>
      if between 97 122 a
      then String (ascii_of_N (N_of_ascii a - 32)) (fold_name r)
      else
        match r with
        | String b r' =>
            if (byte_of a =? 197) && (byte_of b =? 191)
            then String "S" (fold_name r')
            else
              match r' with
              | String c r'' =>
                  if (byte_of a =? 226) && (byte_of b =? 132)
                     && (byte_of c =? 170)
                  then String "K" (fold_name r'')
                  else String a (fold_name r)
              | EmptyString => String a (fold_name r)
              end
        | EmptyString => String a EmptyString
        end
  end.

(** Keys in strictly increasing order, as a map's entry list has them. *)
Fixpoint strictly_increasing (ks : list string) : bool :=
  match ks with
  | [] => true
  | k :: rest =>
      forallb
        (fun k' => match String.compare k k' with Lt => true | _ => false end)
        rest
      && strictly_increasing rest
  end.

(** The values the decoder itself produces, which are the ones the
    encoder can write without change: nil, booleans, finite float64s,
    strings of valid UTF-8, and slices and maps of such values. *)
Fixpoint json_native (v : value) : bool :=
  match v with
  | VNil => true
  | VBool _ => true
  | VInt _ => false
  | VFloat64 f => float64_is_finite f
  | VString s => valid_utf8 s
  | VSlice l => forallb json_native l
  | VMap m =>
      strictly_increasing (map fst m)
      && forallb
           (fun kv => match kv with (k, x) => valid_utf8 k && json_native x end)
           m
  end.

(** A value round-trips when encoding gives a document that decodes to
    the value. *)
Definition round_trips (v : value) : Prop :=
  exists j, encode_value v = Some j /\ decode_value j = Some v.

Definition args_native (args : slice value) : bool :=
  match args with
  | None => true
  | Some l => forallb json_native l
  end.

End Json.

(* ===================================================================== *)
(** * The log *)
(* ===================================================================== *)

Module Log.

Inductive level : Type := TRACE | DEBUG | WARN | ERROR | FATAL.

(** One [logMessage] call: its level and the text it starts with. *)
Definition entry : Type := (level * string)%type.

Definition has_fatal (l : list entry) : bool :=
  existsb (fun e => match fst e with FATAL => true | _ => false end) l.

End Log.

(* ===================================================================== *)
(** * src/ipc.go *)
(* ===================================================================== *)

Module Ipc.
Import Go Json Log.

Definition DEFAULT_BUFFER_SIZE : Z := 1024.

Definition IpcMessageType : Type := Z.

Record IpcFuncCall : Type := {
  MsgType : IpcMessageType;
  MacAddress : Z;
  Args : slice value
}.

Definition IPC_MSG_TYPE_OK : IpcMessageType := 0.
Definition IPC_MSG_TYPE_CLOSE_CONN : IpcMessageType := 1.
Definition IPC_MSG_TYPE_OPEN_FILE : IpcMessageType := 2.
Definition IPC_MSG_TYPE_GOTO_LINE : IpcMessageType := 3.
Definition IPC_MSG_TYPE_GOTO_COLUMN : IpcMessageType := 4.

Definition message_types : list IpcMessageType :=
  [IPC_MSG_TYPE_OK; IPC_MSG_TYPE_CLOSE_CONN; IPC_MSG_TYPE_OPEN_FILE;
   IPC_MSG_TYPE_GOTO_LINE; IPC_MSG_TYPE_GOTO_COLUMN].

(** [json.Marshal] of an [IpcFuncCall]: the exported fields in
    declaration order; a nil [Args] is written as [null]. *)
Definition Marshal (c : IpcFuncCall) : option json :=
  match
    match Args c with
    | None => Some JNull
    | Some l => option_map JArray (sequence (map encode_value l))
    end
  with
  | Some args =>
      Some (JObject [("MsgType", JNumber (NumInt (MsgType c)));
                     ("MacAddress", JNumber (NumInt (MacAddress c)));
                     ("Args", args)])
  | None => None
  end.

(** The zero value [var funcCall IpcFuncCall]. *)
Definition zero_call : IpcFuncCall :=
  {| MsgType := 0; MacAddress := 0; Args := None |}.

(** The members of an object, in order, stored into the fields they
    name; other members are skipped, and any member that does not fit
    its field makes the whole decoding fail. *)
Fixpoint decode_members (m : list (string * json)) (c : IpcFuncCall)
  : option IpcFuncCall :=
  match m with
  | [] => Some c
  | (k, j) :: rest =>
      let name := fold_name k in
      if String.eqb name "MSGTYPE" then
        match decode_integer false in_int (MsgType c) j with
        | Some z =>
            decode_members rest
              {| MsgType := z; MacAddress := MacAddress c; Args := Args c |}
        | None => None
        end
      else if String.eqb name "MACADDRESS" then
        match decode_integer true in_uint64 (MacAddress c) j with
        | Some z =>
            decode_members rest
              {| MsgType := MsgType c; MacAddress := z; Args := Args c |}
        | None => None
        end
      else if String.eqb name "ARGS" then
        match decode_slice j with
        | Some a =>
            decode_members rest
              {| MsgType := MsgType c; MacAddress := MacAddress c; Args := a |}
        | None => None
        end
      else decode_members rest c
  end.

(** [json.Unmarshal(data, &funcCall)] on a fresh [funcCall]. *)
Definition Unmarshal (data : payload) : option IpcFuncCall :=
  match data with
  | Garbage => None
  | Text JNull => Some zero_call
  | Text (JObject m) => decode_members m zero_call
  | Text _ => None
  end.

(** Encoding, then decoding what was encoded. *)
Definition roundtrip (c : IpcFuncCall) : option IpcFuncCall :=
  match Marshal c with
  | Some j => Unmarshal (Text j)
  | None => None
  end.

(** ** getMacAddress *)

(** [net.Interface], the two fields read here. *)
Record Interface : Type := {
  Flags : Z;
  HardwareAddr : list Byte.byte
}.

Definition FlagUp : Z := 1.

Definition uint64_of_byte (b : Byte.byte) : Z := Z.of_N (Byte.to_N b).

(** [bytes.Compare(a, nil)]: [0] exactly when [a] is empty. *)
Definition bytes_Compare_nil (a : list Byte.byte) : Z :=
  match a with [] => 0 | _ :: _ => 1 end.

(** The inner loop, entered at index [j] with accumulator [mac]. *)
Fixpoint accumulate (j : Z) (mac : Z) (addr : list Byte.byte) : Z :=
  match addr with
  | [] => mac
  | b :: rest =>
      if 8 <=? j then mac
      else
        let mac := uint64_wrap (Z.shiftl mac 8) in
        let mac := uint64_wrap (mac + uint64_of_byte b) in
        accumulate (j + 1) mac rest
  end.

(** The loop over the interfaces. *)
Fixpoint scan_interfaces (interfaces : list Interface) : Z :=
  match interfaces with
  | [] => 0
  | i :: rest =>
      if negb (Z.land (Flags i) FlagUp =? 0)
         && negb (bytes_Compare_nil (HardwareAddr i) =? 0)
      then
        match HardwareAddr i with
        | b0 :: _ =>
            if Z.land (uint64_of_byte b0) 2 =? 2
            then scan_interfaces rest
            else accumulate 0 0 (HardwareAddr i)
        | [] => scan_interfaces rest
        end
      else scan_interfaces rest
  end.

(** [getMacAddress], on the result of [net.Interfaces()] ([None] when it
    returned an error). *)
Definition getMacAddress (interfaces : option (list Interface)) : Z :=
  match interfaces with
  | None => 0
  | Some l => scan_interfaces l
  end.

(** ** The client *)

Record IpcClient : Type := {
  client_mac : Z
}.

(** What [conn.Read] returned into a buffer of [DEFAULT_BUFFER_SIZE]
    bytes: an error, or the bytes of one message (a document that did
    not fit the buffer arrives cut, which is [Garbage]). *)
Inductive read_result : Type :=
| ReadError
| ReadBytes (data : payload).

(** What a [Call] did: its result, whether it closed the connection,
    what it handed to [conn.Write], what it logged. *)
Record call_result : Type := {
  call_ok : bool;
  call_closed : bool;
  call_written : list json;
  call_logs : list entry
}.

(** The part of [Call] after the response was decoded. *)
Definition check_response (client : IpcClient) (funcCall : IpcFuncCall)
  : bool * bool * list entry :=
  if negb (MacAddress funcCall =? client_mac client) then
    (false, false,
     [(WARN, "Signal rejected: Connected server is not running on same machine.")])
  else if MsgType funcCall =? IPC_MSG_TYPE_CLOSE_CONN then
    (true, true, [(TRACE, "Disconnected from server.")])
  else if negb (MsgType funcCall =? IPC_MSG_TYPE_OK) then
    (false, false, [(TRACE, "Client sent non OK response:")])
  else (true, false, []).

(** [client.Call(msgType, args...)]; [write_ok] and [rd] are what the
    connection answers to the one [Write] and the one [Read]. *)
Definition Call (client : IpcClient) (msgType : IpcMessageType)
    (args : slice value) (write_ok : bool) (rd : read_result) : call_result :=
  let sending := (DEBUG, "Sending signal:") in
  match Marshal {| MsgType := msgType; MacAddress := client_mac client;
                   Args := args |} with
  | None =>
      {| call_ok := false; call_closed := false; call_written := [];
         call_logs := [sending; (WARN, "Failed to encode function call:")] |}
  | Some jsonData =>
      if negb write_ok then
        {| call_ok := false; call_closed := false;
           call_written := [jsonData];
           call_logs := [sending; (WARN, "Failed to send signal:")] |}
      else
        match rd with
        | ReadError =>
            {| call_ok := false; call_closed := false;
               call_written := [jsonData];
               call_logs := [sending; (WARN, "Failed to read response:")] |}
        | ReadBytes resp =>
            match Unmarshal resp with
            | None =>
                {| call_ok := false; call_closed := false;
                   call_written := [jsonData];
                   call_logs :=
                     [sending; (WARN, "Failed to decode response:")] |}
            | Some funcCall =>
                let '(ok, closed, logs) := check_response client funcCall in
                {| call_ok := ok; call_closed := closed;
                   call_written := [jsonData];
                   call_logs := sending :: logs |}
            end
        end
  end.

(** ** The server *)

Record IpcServer : Type := {
  listener_open : bool;
  server_mac : Z;
  callsAvailable : bool;
  calls : list IpcFuncCall
}.

Definition appendNewCall (server : IpcServer) (call : IpcFuncCall)
  : IpcServer :=
  {| listener_open := listener_open server;
     server_mac := server_mac server;
     callsAvailable := true;
     calls := calls server ++ [call] |}.

(** The two replies [mainLoop] encodes before it accepts connections;
    [None] when an encoding fails and [mainLoop] returns at once. *)
Definition encoded_replies (server : IpcServer) : option (json * json) :=
  match Marshal {| MsgType := IPC_MSG_TYPE_OK;
                   MacAddress := server_mac server; Args := None |} with
  | None => None
  | Some encodedOK =>
      match Marshal {| MsgType := IPC_MSG_TYPE_CLOSE_CONN;
                       MacAddress := server_mac server; Args := None |} with
      | None => None
      | Some encodedCLOSE => Some (encodedOK, encodedCLOSE)
      end
  end.

(** How one pass through the body of the connection's [for] loop ends. *)
Inductive flow : Type :=
| Continue
| Break
| Return.

Record iteration : Type := {
  it_server : IpcServer;
  it_written : list json;
  it_logs : list entry;
  it_flow : flow
}.

(** One pass through the loop of the connection goroutine: [rd] is what
    [conn.Read] returned, [write_ok] whether the reply's [conn.Write]
    succeeds.  A [break] or [continue] inside the [switch] leaves the
    [switch] only, so the loop goes on. *)
Definition handle_read (server : IpcServer) (encodedOK encodedCLOSE : json)
    (rd : read_result) (write_ok : bool) : iteration :=
  match rd with
  | ReadError =>
      {| it_server := server; it_written := [];
         it_logs := [(WARN, "Failed to read client data:")];
         it_flow := Continue |}
  | ReadBytes data =>
      match Unmarshal data with
      | None =>
          {| it_server := server; it_written := [];
             it_logs := [(WARN, "Failed to decode client data:")];
             it_flow := Continue |}
      | Some funcCall =>
          if negb (MacAddress funcCall =? server_mac server) then
            {| it_server := server; it_written := [];
               it_logs :=
                 [(WARN, "Signal Rejected: Connected client is not running on same machine.")];
               it_flow := Break |}
          else if MsgType funcCall =? IPC_MSG_TYPE_CLOSE_CONN then
            if write_ok then
              {| it_server := server; it_written := [encodedCLOSE];
                 it_logs := [(TRACE, "Client")];
                 it_flow := Return |}
            else
              {| it_server := server; it_written := [encodedCLOSE];
                 it_logs := [(TRACE, "Client");
                             (WARN, "Failed to send response to client.")];
                 it_flow := Continue |}
          else
            {| it_server := appendNewCall server funcCall;
               it_written := [encodedOK];
               it_logs :=
                 if write_ok then []
                 else [(WARN, "Failed to send response to client.")];
               it_flow := Continue |}
      end
  end.

(** What a connection goroutine did over a finite run of reads. *)
Record conn_run : Type := {
  run_server : IpcServer;
  run_written : list json;
  run_logs : list entry;
  run_closed : bool
}.

(** The connection goroutine over the reads of [script]; it ends, and the
    deferred [conn.Close()] runs, at the first [break] of the loop or
    [return]. *)
Fixpoint handle_conn (server : IpcServer) (encodedOK encodedCLOSE : json)
    (script : list (read_result * bool)) : conn_run :=
  match script with
  | [] =>
      {| run_server := server; run_written := []; run_logs := [];
         run_closed := false |}
  | (rd, write_ok) :: rest =>
      let it := handle_read server encodedOK encodedCLOSE rd write_ok in
      match it_flow it with
      | Continue =>
          let r := handle_conn (it_server it) encodedOK encodedCLOSE rest in
          {| run_server := run_server r;
             run_written := it_written it ++ run_written r;
             run_logs := it_logs it ++ run_logs r;
             run_closed := run_closed r |}
      | Break | Return =>
          {| run_server := it_server it; run_written := it_written it;
             run_logs := it_logs it; run_closed := true |}
      end
  end.

(** [server.Close()]. *)
Definition Close (server : IpcServer) : IpcServer :=
  {| listener_open := false; server_mac := server_mac server;
     callsAvailable := callsAvailable server; calls := calls server |}.

(** ** Dispatch on the main thread *)

Inductive effect : Type :=
| OpenFile (path : string)
| GotoLine (line : Z)
| GotoColumn (column : Z)
| RaiseWindow
| Logged (e : entry).

Section Dispatch.

(** The conversion [int(f)] of a float64: truncation toward zero, and a
    platform-dependent result outside the range of [int]. *)
Variable int_of_float64 : float64 -> Z.

(** The body of the loop of [update] for one queued call. *)
Definition dispatch (call : IpcFuncCall) : outcome (list effect) :=
  if MsgType call =? IPC_MSG_TYPE_OPEN_FILE then
    bind (index0 (Args call)) (fun v =>
    bind (assert_string v) (fun path =>
    Returns [OpenFile path]))
  else if MsgType call =? IPC_MSG_TYPE_GOTO_LINE then
    bind (index0 (Args call)) (fun v =>
    bind (assert_float64 v) (fun f =>
    Returns [GotoLine (int_of_float64 f)]))
  else if MsgType call =? IPC_MSG_TYPE_GOTO_COLUMN then
    bind (index0 (Args call)) (fun v =>
    bind (assert_float64 v) (fun f =>
    Returns [GotoColumn (int_of_float64 f)]))
  else Returns [Logged (WARN, "Server received invalid signal:")].

Fixpoint dispatch_all (queue : list IpcFuncCall) : outcome (list effect) :=
  match queue with
  | [] => Returns []
  | call :: rest =>
      bind (dispatch call) (fun e =>
      bind (dispatch_all rest) (fun es =>
      Returns (e ++ es)))
  end.

(** [server.update()], once per tick. *)
Definition update (server : IpcServer)
  : outcome (IpcServer * list effect) :=
  if callsAvailable server then
    bind (dispatch_all (calls server)) (fun es =>
    Returns ({| listener_open := listener_open server;
                server_mac := server_mac server;
                callsAvailable := false;
                calls := [] |},
             es ++ [RaiseWindow]))
  else Returns (server, []).

End Dispatch.

(** Whether the arguments of a queued call are what [update] asserts
    them to be: a first argument that is a string for OPEN_FILE, a
    float64 for GOTO_LINE and GOTO_COLUMN; other types read none. *)
Definition args_fit (call : IpcFuncCall) : bool :=
  if MsgType call =? IPC_MSG_TYPE_OPEN_FILE then
    match Args call with
    | Some (VString _ :: _) => true
    | _ => false
    end
  else if (MsgType call =? IPC_MSG_TYPE_GOTO_LINE)
          || (MsgType call =? IPC_MSG_TYPE_GOTO_COLUMN) then
    match Args call with
    | Some (VFloat64 _ :: _) => true
    | _ => false
    end
  else true.

(** ** One call of a client against a connection goroutine *)

(** The client writes its request, the goroutine of its connection reads
    and handles it, and the client reads what the goroutine wrote; when
    the goroutine closed the connection without a reply the client's
    read fails.  Both writes succeed and each message arrives whole in
    one read.  The result is the goroutine's pass and what the client's
    [Call] did. *)
Definition call_against (server : IpcServer) (client : IpcClient)
    (msgType : IpcMessageType) (args : slice value)
  : option (iteration * call_result) :=
  match encoded_replies server with
  | None => None
  | Some (encodedOK, encodedCLOSE) =>
      match Marshal {| MsgType := msgType; MacAddress := client_mac client;
                       Args := args |} with
      | None => None
      | Some request =>
          let it :=
            handle_read server encodedOK encodedCLOSE
              (ReadBytes (Text request)) true in
          let rd :=
            match it_written it with
            | reply :: _ => ReadBytes (Text reply)
            | [] => ReadError
            end in
          Some (it, Call client msgType args true rd)
      end
  end.

End Ipc.

(* ===================================================================== *)
(** * The input callbacks *)
(* ===================================================================== *)

(** The GLFW 3.3 constants the callbacks use. *)
Module glfw.

Definition Release : Z := 0.
Definition Press : Z := 1.
Definition Repeat : Z := 2.

Definition ModShift : Z := 1.
Definition ModControl : Z := 2.
Definition ModAlt : Z := 4.
Definition ModSuper : Z := 8.

Definition KeySpace : Z := 32.
Definition KeyA : Z := 65.
Definition KeyEscape : Z := 256.
Definition KeyEnter : Z := 257.
Definition KeyTab : Z := 258.
Definition KeyBackspace : Z := 259.
Definition KeyInsert : Z := 260.
Definition KeyDelete : Z := 261.
Definition KeyRight : Z := 262.
Definition KeyLeft : Z := 263.
Definition KeyDown : Z := 264.
Definition KeyUp : Z := 265.
Definition KeyPageUp : Z := 266.
Definition KeyPageDown : Z := 267.
Definition KeyHome : Z := 268.
Definition KeyEnd : Z := 269.
Definition KeyCapsLock : Z := 280.
Definition KeyF1 : Z := 290.
Definition KeyF2 : Z := 291.
Definition KeyF3 : Z := 292.
Definition KeyF4 : Z := 293.
Definition KeyF5 : Z := 294.
Definition KeyF6 : Z := 295.
Definition KeyF7 : Z := 296.
Definition KeyF8 : Z := 297.
Definition KeyF9 : Z := 298.
Definition KeyF10 : Z := 299.
Definition KeyF11 : Z := 300.
Definition KeyF12 : Z := 301.
Definition KeyKPEnter : Z := 335.
Definition KeyLeftShift : Z := 340.
Definition KeyLeftControl : Z := 341.
Definition KeyLeftAlt : Z := 342.
Definition KeyLeftSuper : Z := 343.
Definition KeyRightShift : Z := 344.
Definition KeyRightControl : Z := 345.
Definition KeyRightAlt : Z := 346.
Definition KeyRightSuper : Z := 347.

End glfw.

Module Input.

Definition SpecialKeys : gmap Z string :=
  list_to_map
    [(glfw.KeyEscape, "ESC"); (glfw.KeyEnter, "CR");
     (glfw.KeyKPEnter, "kEnter"); (glfw.KeySpace, "Space");
     (glfw.KeyBackspace, "BS"); (glfw.KeyUp, "Up"); (glfw.KeyDown, "Down");
     (glfw.KeyRight, "Right"); (glfw.KeyLeft, "Left"); (glfw.KeyTab, "Tab");
     (glfw.KeyInsert, "Insert"); (glfw.KeyDelete, "Del");
     (glfw.KeyHome, "Home"); (glfw.KeyEnd, "End");
     (glfw.KeyPageUp, "PageUp"); (glfw.KeyPageDown, "PageDown");
     (glfw.KeyF1, "F1"); (glfw.KeyF2, "F2"); (glfw.KeyF3, "F3");
     (glfw.KeyF4, "F4"); (glfw.KeyF5, "F5"); (glfw.KeyF6, "F6");
     (glfw.KeyF7, "F7"); (glfw.KeyF8, "F8"); (glfw.KeyF9, "F9");
     (glfw.KeyF10, "F10"); (glfw.KeyF11, "F11"); (glfw.KeyF12, "F12")].

Definition ModifierKeys : gmap Z string :=
  list_to_map
    [(glfw.KeyLeftControl, "C"); (glfw.KeyRightControl, "C");
     (glfw.KeyLeftAlt, "A"); (glfw.KeyRightAlt, "A");
     (glfw.KeyLeftShift, "S"); (glfw.KeyRightShift, "S");
     (glfw.KeyLeftSuper, "D"); (glfw.KeyRightSuper, "D")].

(** The package variables the key callback reads and writes, and the
    visibility of [EditorSingleton.popupMenu]. *)
Record state : Type := {
  lastMouseModifiers : string;
  zoomInKey : string;
  zoomOutKey : string;
  toggleFullscreenKey : string;
  popupMenuEnabled : bool;
  popupMenuVisible : bool
}.

(** What [InitializeInputEvents] sets, with no menu shown. *)
Definition initial : state :=
  {| lastMouseModifiers := "";
     zoomInKey := "<C-+>";
     zoomOutKey := "<C-->";
     toggleFullscreenKey := "<F11>";
     popupMenuEnabled := true;
     popupMenuVisible := false |}.

(** Calls into the renderer, the window and the backend. *)
Inductive effect : Type :=
| IncreaseFontSize
| DecreaseFontSize
| ToggleFullscreen
| NvimInput (keycode : string).

Definition set_modifiers (st : state) (m : string) : state :=
  {| lastMouseModifiers := m;
     zoomInKey := zoomInKey st;
     zoomOutKey := zoomOutKey st;
     toggleFullscreenKey := toggleFullscreenKey st;
     popupMenuEnabled := popupMenuEnabled st;
     popupMenuVisible := popupMenuVisible st |}.

(** Modelled from the spec: [popupMenu.Hide], whose source is not part of
    the files at hand; it closes the menu. *)
Definition popupMenu_Hide (st : state) : state :=
  {| lastMouseModifiers := lastMouseModifiers st;
     zoomInKey := zoomInKey st;
     zoomOutKey := zoomOutKey st;
     toggleFullscreenKey := toggleFullscreenKey st;
     popupMenuEnabled := popupMenuEnabled st;
     popupMenuVisible := false |}.

(** [strings.Index(s, code) == -1]. *)
Definition strings_absent (s code : string) : bool :=
  match String.index 0 code s with
  | Some _ => false
  | None => true
  end.

(** [strings.Replace(s, old, "", 1)]: the first occurrence removed. *)
Definition strings_remove_first (s old : string) : string :=
  match String.index 0 old s with
  | Some n =>
      String.substring 0 n s
      +:+ String.substring (n + String.length old)
            (String.length s - (n + String.length old)) s
  | None => s
  end.

Definition has_mod (mods flag : Z) : bool := negb (Z.land mods flag =? 0).

Section Handlers.

(** [glfw.GetKeyName], the platform's name of a key. *)
Variable GetKeyName : Z -> Z -> string.

(** The name the callback settles on; [None] where it returns without
    building a keycode. *)
Definition resolve_keyname (key scancode : Z) (ctrl shift alt super : bool)
  : option string :=
  match SpecialKeys !! key with
  | Some name => Some name
  | None =>
      if shift || alt || super then None
      else if ctrl then
        let keyname := GetKeyName key scancode in
        if String.eqb keyname "" then None else Some keyname
      else Some ""
  end.

Definition build_keycode (ctrl shift alt super : bool) (keyname : string)
  : string :=
  let keycode := "<" in
  let keycode := if ctrl then keycode +:+ "C-" else keycode in
  let keycode := if shift then keycode +:+ "S-" else keycode in
  let keycode := if alt then keycode +:+ "A-" else keycode in
  let keycode := if super then keycode +:+ "D-" else keycode in
  keycode +:+ (keyname +:+ ">").

(** The [switch] on the keycode and the call that follows it. *)
Definition handle_keycode (st : state) (keycode : string)
  : state * list effect :=
  if String.eqb keycode (zoomInKey st) then (st, [IncreaseFontSize])
  else if String.eqb keycode (zoomOutKey st) then (st, [DecreaseFontSize])
  else if String.eqb keycode (toggleFullscreenKey st)
    then (st, [ToggleFullscreen])
  else if String.eqb keycode "<ESC>" then
    ((if popupMenuEnabled st then popupMenu_Hide st else st),
     [NvimInput keycode])
  else (st, [NvimInput keycode]).

Definition KeyEventHandler (st : state) (key scancode action mods : Z)
  : state * list effect :=
  match ModifierKeys !! key with
  | Some code =>
      if action =? glfw.Press then
        if strings_absent (lastMouseModifiers st) code
        then (set_modifiers st (lastMouseModifiers st +:+ code), [])
        else (st, [])
      else if (action =? glfw.Release)
              && negb (String.eqb (lastMouseModifiers st) "")
      then
        (set_modifiers st (strings_remove_first (lastMouseModifiers st) code),
         [])
      else (st, [])
  | None =>
      if negb (action =? glfw.Release) then
        let ctrl := has_mod mods glfw.ModControl in
        let shift := has_mod mods glfw.ModShift in
        let alt := has_mod mods glfw.ModAlt in
        let super := has_mod mods glfw.ModSuper in
        match resolve_keyname key scancode ctrl shift alt super with
        | None => (st, [])
        | Some keyname =>
            handle_keycode st (build_keycode ctrl shift alt super keyname)
        end
      else (st, [])
  end.

End Handlers.

(** Whether a keycode is one of the three bound tokens, and whether a
    list of effects hands a keycode to the backend. *)
Definition is_binding (st : state) (keycode : string) : bool :=
  String.eqb keycode (zoomInKey st)
  || String.eqb keycode (zoomOutKey st)
  || String.eqb keycode (toggleFullscreenKey st).

Definition forwards (effects : list effect) (keycode : string) : bool :=
  existsb
    (fun e => match e with NvimInput k => String.eqb k keycode | _ => false end)
    effects.

End Input.

(* ===================================================================== *)
(** * cmd/neoray/renderer_gl.go: the two buffer uploads *)
(* ===================================================================== *)

Module RendererGL.
Import Log.

Definition float32 : Type := spec_float.

Definition VertexStructSize : Z := 9 * 4.

Record Vertex : Type := {
  X : float32; Y : float32;
  TexX : float32; TexY : float32;
  R : float32; G : float32; B : float32; A : float32;
  useTexture : float32
}.

(** OpenGL enumerants. *)
Definition ARRAY_BUFFER : Z := 34962.
Definition ELEMENT_ARRAY_BUFFER : Z := 34963.
Definition STATIC_DRAW : Z := 35044.
Definition NO_ERROR : Z := 0.

(** What a buffer call points at. *)
Inductive contents : Type :=
| Vertices (data : list Vertex)
| Elements (data : list Z).

(** The buffer calls issued to the driver. *)
Inductive gl_call : Type :=
| BufferData (target size : Z) (data : contents) (usage : Z)
| BufferSubData (target offset size : Z) (data : contents).

Definition is_BufferData (c : gl_call) : bool :=
  match c with BufferData _ _ _ _ => true | BufferSubData _ _ _ _ => false end.

(** The package variables [rgl_vertex_buffer_len] and
    [rgl_element_buffer_len]. *)
Record state : Type := {
  rgl_vertex_buffer_len : Z;
  rgl_element_buffer_len : Z
}.

(** Both start at the zero value of [int]. *)
Definition initial : state :=
  {| rgl_vertex_buffer_len := 0; rgl_element_buffer_len := 0 |}.

(** [len(data)]. *)
Definition len {T} (data : list T) : Z := Z.of_nat (length data).

(** [RGL_CheckError]: [err] is what [gl.GetError()] returned. *)
Definition RGL_CheckError (callerName : string) (err : Z) : list entry :=
  if err =? NO_ERROR then [] else [(ERROR, "Opengl Error")].

(** [RGL_UpdateVertexData]; [err] is the driver's error state after the
    buffer call.  The result is the new state, the buffer call made, and
    the log. *)
Definition RGL_UpdateVertexData (st : state) (data : list Vertex) (err : Z)
  : state * gl_call * list entry :=
  if negb (rgl_vertex_buffer_len st =? len data) then
    ({| rgl_vertex_buffer_len := len data;
        rgl_element_buffer_len := rgl_element_buffer_len st |},
     BufferData ARRAY_BUFFER (len data * VertexStructSize) (Vertices data)
       STATIC_DRAW,
     RGL_CheckError "RGL_UpdateVertexBufferData.BufferData" err)
  else
    (st,
     BufferSubData ARRAY_BUFFER 0 (len data * VertexStructSize)
       (Vertices data),
     RGL_CheckError "RGL_UpdateVertexBufferData.BufferSubData" err).

(** [RGL_UpdateElementData]. *)
Definition RGL_UpdateElementData (st : state) (data : list Z) (err : Z)
  : state * gl_call * list entry :=
  if negb (rgl_element_buffer_len st =? len data) then
    ({| rgl_vertex_buffer_len := rgl_vertex_buffer_len st;
        rgl_element_buffer_len := len data |},
     BufferData ELEMENT_ARRAY_BUFFER (len data * 4) (Elements data)
       STATIC_DRAW,
     RGL_CheckError "RGL_UpdateElementBufferData.BufferData" err)
  else
    (st,
     BufferSubData ELEMENT_ARRAY_BUFFER 0 (len data * 4) (Elements data),
     RGL_CheckError "RGL_UpdateElementBufferData.BufferSubData" err).

(** The parts of an upload's result. *)
Definition state_after (r : state * gl_call * list entry) : state :=
  fst (fst r).
Definition call_made (r : state * gl_call * list entry) : gl_call :=
  snd (fst r).

(** A run of element uploads, and a run of vertex uploads, each with the
    driver's error state after it. *)
Definition element_uploads (st : state) (es : list (list Z * Z)) : state :=
  fold_left
    (fun s e => state_after (RGL_UpdateElementData s (fst e) (snd e))) es st.

Definition vertex_uploads (st : state) (vs : list (list Vertex * Z)) : state :=
  fold_left
    (fun s v => state_after (RGL_UpdateVertexData s (fst v) (snd v))) vs st.

(** The call an upload of [n] elements must make after an upload of [m]
    elements: content-only when the counts agree, a reallocation
    otherwise. *)
Definition expected_call (target elem_size : Z) (m n : Z) (data : contents)
  : gl_call :=
  if m =? n then BufferSubData target 0 (n * elem_size) data
  else BufferData target (n * elem_size) data STATIC_DRAW.

End RendererGL.

(* ===================================================================== *)
(** * src/nvimproc.go: the version check *)
(* ===================================================================== *)

Module NvimProc.
Import Log.

(** The [version] dictionary of the API information. *)
Record version : Type := {
  major : Z;
  minor : Z;
  patch : Z
}.

(** The minimum the fatal message names: 0.4.0. *)
Definition minimum_version : version :=
  {| major := 0; minor := 4; patch := 0 |}.

(** Versions compared major first, then minor, then patch. *)
Definition version_below (v w : version) : bool :=
  (major v <? major w)
  || ((major v =? major w)
      && ((minor v <? minor w)
          || ((minor v =? minor w) && (patch v <? patch w)))).

(** Modelled from the spec: [logMessage] at the fatal level, whose source
    is not part of the files at hand; it aborts the session, so nothing
    after it runs. *)
Inductive result : Type :=
| Aborted (logs : list entry)
| Completed (logs : list entry).

(** [requestApiInfo]; [info] is what [APIInfo()] returned, [None] for an
    error. *)
Definition requestApiInfo (info : option version) : result :=
  match info with
  | None => Completed [(ERROR, "Failed to get api information:")]
  | Some v =>
      if minor v <? 4 then
        Aborted
          [(FATAL,
            "Neoray needs at least 0.4.0 version of neovim. Please update your neovim to a newer version.")]
      else Completed [(TRACE, "Neovim version")]
  end.

Definition fails_fatally (r : result) : bool :=
  match r with Aborted _ => true | Completed _ => false end.

End NvimProc.

(* ===================================================================== *)
(** * Sample machines *)
(* ===================================================================== *)

Module Sample.
Import Go Json Ipc.

(** A server of identity 7 with an empty queue, a client on the same
    machine, and one that sends another identity. *)
Definition server : IpcServer :=
  {| listener_open := true; server_mac := 7; callsAvailable := false;
     calls := [] |}.

Definition same_machine : IpcClient := {| client_mac := 7 |}.
Definition other_machine : IpcClient := {| client_mac := 8 |}.

Definition message (t a : Z) (args : json) : json :=
  JObject [("MsgType", JNumber (NumInt t));
           ("MacAddress", JNumber (NumInt a)); ("Args", args)].

(** The two replies of the server, as [mainLoop] encodes them. *)
Definition encodedOK : json := message IPC_MSG_TYPE_OK 7 JNull.
Definition encodedCLOSE : json := message IPC_MSG_TYPE_CLOSE_CONN 7 JNull.

End Sample.

(* ===================================================================== *)
(** * src/ipc.go: the rest of the client and the queue's discipline *)
(* ===================================================================== *)

Module IpcMore.
Import Go Json Log Ipc.

(** What the goroutine lets into the queue: the server's own identity
    and any type but CLOSE. *)
Definition admitted (server : IpcServer) (call : IpcFuncCall) : Prop :=
  MacAddress call = server_mac server
  /\ MsgType call <> IPC_MSG_TYPE_CLOSE_CONN.

(** Calls waiting in the queue are flagged. *)
Definition flagged (server : IpcServer) : Prop :=
  calls server <> [] -> callsAvailable server = true.

(** The one action [update] takes for a queued call whose arguments
    fit. *)
Definition action (int_of_float64 : float64 -> Z) (call : IpcFuncCall)
  : effect :=
  match MsgType call, Args call with
  | 2, Some (VString path :: _) => OpenFile path
  | 3, Some (VFloat64 f :: _) => GotoLine (int_of_float64 f)
  | 4, Some (VFloat64 f :: _) => GotoColumn (int_of_float64 f)
  | _, _ => Logged (WARN, "Server received invalid signal:")
  end.

End IpcMore.

(* ===================================================================== *)
(** * The input callbacks: characters, buttons, motion, scroll, drop *)
(* ===================================================================== *)

Module Pointer.
Import Go.

(** GLFW's mouse buttons. *)
Definition MouseButtonLeft : Z := 0.
Definition MouseButtonRight : Z := 1.
Definition MouseButtonMiddle : Z := 2.

(** [utf8.RuneError], U+FFFD, and the bounds of the encoder. *)
Definition RuneError : Z := 65533.
Definition MaxRune : Z := 1114111.
Definition surrogateMin : Z := 55296.
Definition surrogateMax : Z := 57343.

(** [byte(x)]: the low eight bits. *)
Definition byte_trunc (x : Z) : Z := x mod 256.

Definition char_of (x : Z) : ascii := ascii_of_N (Z.to_N x).

(** The three-byte encoding of a rune up to U+FFFF. *)
Definition encode3 (r : Z) : string :=
  String (char_of (Z.lor 224 (byte_trunc (Z.shiftr r 12))))
    (String (char_of (Z.lor 128 (Z.land (byte_trunc (Z.shiftr r 6)) 63)))
       (String (char_of (Z.lor 128 (Z.land (byte_trunc r) 63)))
          EmptyString)).

(** [string(char)] for a rune (an [int32]): its UTF-8 encoding, with
    U+FFFD standing in for surrogates and for values that are no code
    points. *)
Definition string_of_rune (r : Z) : string :=
  if (0 <=? r) && (r <=? 127) then String (char_of r) EmptyString
  else if (0 <=? r) && (r <=? 2047) then
    String (char_of (Z.lor 192 (byte_trunc (Z.shiftr r 6))))
      (String (char_of (Z.lor 128 (Z.land (byte_trunc r) 63))) EmptyString)
  else if (r <? 0) || (MaxRune <? r)
          || ((surrogateMin <=? r) && (r <=? surrogateMax))
    then encode3 RuneError
  else if r <=? 65535 then encode3 r
  else
    String (char_of (Z.lor 240 (byte_trunc (Z.shiftr r 18))))
      (String (char_of (Z.lor 128 (Z.land (byte_trunc (Z.shiftr r 12)) 63)))
         (String (char_of (Z.lor 128 (Z.land (byte_trunc (Z.shiftr r 6)) 63)))
            (String (char_of (Z.lor 128 (Z.land (byte_trunc r) 63)))
               EmptyString))).

(** [CharEventHandler]: what is handed to [nvim.Input]. *)
Definition CharEventHandler (char : Z) : list Input.effect :=
  let c := string_of_rune char in
  if String.eqb c " " then []
  else if String.eqb c "<" then [Input.NvimInput "<LT>"]
  else [Input.NvimInput c].

(** The package variables of the pointer callbacks, next to the ones the
    key callback owns, and the cell size of [EditorSingleton]. *)
Record state : Type := {
  keys : Input.state;
  lastMousePos : Z * Z;
  lastMouseButton : string;
  lastMouseAction : Z;
  cellWidth : Z;
  cellHeight : Z
}.

(** Calls into the popup menu and the backend. *)
Inductive effect : Type :=
| PopupMouseClick (rightbutton : bool) (pos : Z * Z)
| PopupMouseMove (pos : Z * Z)
| InputMouse (button action modifier : string) (grid row col : Z)
| OpenFile (name : string).

(** [a / b] on [int]: truncated toward zero, wrapping at the one quotient
    that does not fit, and a run-time panic for a zero divisor. *)
Definition int_div (a b : Z) : option Z :=
  if b =? 0 then None
  else Some ((Z.quot a b + 2 ^ 63) mod 2 ^ 64 - 2 ^ 63).

(** The cell under the pointer: the row first, then the column. *)
Definition cell_under (st : state) : option (Z * Z) :=
  match int_div (snd (lastMousePos st)) (cellHeight st) with
  | None => None
  | Some row =>
      match int_div (fst (lastMousePos st)) (cellWidth st) with
      | None => None
      | Some col => Some (row, col)
      end
  end.

(** The tail of [ButtonEventHandler], reached with a button code. *)
Definition forward_button (st : state) (buttonCode : string) (action : Z)
    (before : list effect) : option (state * list effect) :=
  let actionCode := if action =? glfw.Release then "release" else "press" in
  match cell_under st with
  | None => None
  | Some (row, col) =>
      Some ({| keys := keys st; lastMousePos := lastMousePos st;
               lastMouseButton := buttonCode; lastMouseAction := action;
               cellWidth := cellWidth st; cellHeight := cellHeight st |},
            before
            ++ [InputMouse buttonCode actionCode
                  (Input.lastMouseModifiers (keys st)) 0 row col])
  end.

(** [ButtonEventHandler]; [menu_handled] is what [popupMenu.MouseClick]
    answers to a left click.  [None] is the panic of a division by a
    zero cell size. *)
Definition ButtonEventHandler (st : state) (button action mods : Z)
    (menu_handled : bool) : option (state * list effect) :=
  let enabled := Input.popupMenuEnabled (keys st) in
  if button =? MouseButtonLeft then
    if (action =? glfw.Press) && enabled then
      if menu_handled
      then Some (st, [PopupMouseClick false (lastMousePos st)])
      else forward_button st "left" action
             [PopupMouseClick false (lastMousePos st)]
    else forward_button st "left" action []
  else if button =? MouseButtonRight then
    if (action =? glfw.Press) && enabled
    then Some (st, [PopupMouseClick true (lastMousePos st)])
    else forward_button st "right" action []
  else if button =? MouseButtonMiddle then
    forward_button st "middle" action []
  else Some (st, []).

Section Motion.

(** The conversion [int(x)] of a float64. *)
Variable int_of_float64 : float64 -> Z.

(** [MousePosEventHandler]. *)
Definition MousePosEventHandler (st : state) (xpos ypos : float64)
  : option (state * list effect) :=
  let pos := (int_of_float64 xpos, int_of_float64 ypos) in
  let st' :=
    {| keys := keys st; lastMousePos := pos;
       lastMouseButton := lastMouseButton st;
       lastMouseAction := lastMouseAction st;
       cellWidth := cellWidth st; cellHeight := cellHeight st |} in
  let moved :=
    if Input.popupMenuEnabled (keys st) then [PopupMouseMove pos] else [] in
  if lastMouseAction st =? glfw.Press then
    match cell_under st' with
    | None => None
    | Some (row, col) =>
        Some (st',
              moved
              ++ [InputMouse (lastMouseButton st) "drag"
                    (Input.lastMouseModifiers (keys st)) 0 row col])
    end
  else Some (st', moved).

End Motion.

(** [ypos < 0] on float64: false for both zeros and for NaN. *)
Definition float64_negative (y : float64) : bool :=
  SFltb y (S754_zero false).

(** [ScrollEventHandler]. *)
Definition ScrollEventHandler (st : state) (xpos ypos : float64)
  : option (list effect) :=
  let action := if float64_negative ypos then "down" else "up" in
  match cell_under st with
  | None => None
  | Some (row, col) =>
      Some [InputMouse "wheel" action (Input.lastMouseModifiers (keys st)) 0
              row col]
  end.

(** [DropEventHandler]. *)
Definition DropEventHandler (names : list string) : list effect :=
  map OpenFile names.

(** No report of a button, a drag or the wheel among the effects. *)
Definition no_mouse_input (effects : list effect) : Prop :=
  forall button action modifier grid row col,
    ~ In (InputMouse button action modifier grid row col) effects.

(** Whether a string begins with a given byte. *)
Definition starts_with (a : ascii) (s : string) : bool :=
  match s with
  | String b _ => Ascii.eqb a b
  | EmptyString => false
  end.

(** Whether [P] holds of all [2 ^ depth] integers from
    [start * 2 ^ depth] on. *)
Fixpoint all_in_block (P : Z -> bool) (depth : nat) (start : Z) : bool :=
  match depth with
  | O => P start
  | S d => all_in_block P d (2 * start) && all_in_block P d (2 * start + 1)
  end.

(** What [CharEventHandler] has to get right for one rune: the tests
    against the space and the less-than sign, the first byte, and the
    validity of the text. *)
Definition char_tests_ok (r : Z) : bool :=
  Bool.eqb (String.eqb (string_of_rune r) " ") (r =? 32)
  && Bool.eqb (String.eqb (string_of_rune r) "<") (r =? 60)
  && ((r =? 60) || negb (starts_with "<" (string_of_rune r)))
  && Json.valid_utf8 (string_of_rune r).

(** The bytes of the longer encodings, by the bits they carry. *)
Definition continuation (x : Z) : ascii :=
  char_of (Z.lor 128 (Z.land (byte_trunc x) 63)).

Definition lead3 (h : Z) : ascii :=
  char_of (Z.lor 224 (byte_trunc (Z.shiftr h 6))).

Definition lead4 (h : Z) : ascii :=
  char_of (Z.lor 240 (byte_trunc (Z.shiftr h 6))).

End Pointer.

(* ===================================================================== *)
(** * cmd/neoray/renderer_gl.go: the draw call *)
(* ===================================================================== *)

Module RendererDraw.
Import RendererGL.

Definition TRIANGLES : Z := 4.
Definition UNSIGNED_INT : Z := 5125.

(** [int32(n)] of an [int]. *)
Definition int32_of_int (n : Z) : Z := (n + 2 ^ 31) mod 2 ^ 32 - 2 ^ 31.

(** The draw call issued to the driver. *)
Inductive draw_call : Type :=
| DrawElements (mode count type : Z).

(** [RGL_Render], without its error check. *)
Definition RGL_Render (st : state) : draw_call :=
  DrawElements TRIANGLES (int32_of_int (rgl_element_buffer_len st))
    UNSIGNED_INT.

End RendererDraw.

(* ===================================================================== *)
(** * The specification's wording, for comparison with the code *)
(* ===================================================================== *)

(** The derivation of the machine identity as the specification words it:
    the first interface that is up, has a hardware address and is not
    locally administered; its first eight address bytes, big-endian. *)
Module MachineIdentity.
Import Ipc.

Definition is_up (i : Interface) : bool := Z.testbit (Flags i) 0.

Definition has_address (i : Interface) : bool :=
  match HardwareAddr i with [] => false | _ :: _ => true end.

Definition locally_administered (i : Interface) : bool :=
  match HardwareAddr i with
  | b0 :: _ => Z.testbit (uint64_of_byte b0) 1
  | [] => false
  end.

Definition qualifies (i : Interface) : bool :=
  is_up i && has_address i && negb (locally_administered i).

Definition big_endian (bs : list Byte.byte) : Z :=
  fold_left (fun acc b => acc * 256 + uint64_of_byte b) bs 0.

Definition identity (interfaces : list Interface) : Z :=
  match List.find qualifies interfaces with
  | Some i => big_endian (firstn 8 (HardwareAddr i))
  | None => 0
  end.

End MachineIdentity.

(* ===================================================================== *)
(** * Theorems: the machine identity *)
(* ===================================================================== *)

Section MacAddressFacts.
Import Go Ipc MachineIdentity.

Lemma uint64_of_byte_range (b : Byte.byte) : 0 <= uint64_of_byte b < 256.
Proof.
  unfold uint64_of_byte. pose proof (Byte.to_N_bounded b). lia.
Qed.

Lemma land_2_testbit (b : Byte.byte) :
  (Z.land (uint64_of_byte b) 2 =? 2) = Z.testbit (uint64_of_byte b) 1.
Proof. destruct b; reflexivity. Qed.

Lemma land_FlagUp_testbit (flags : Z) :
  negb (Z.land flags FlagUp =? 0) = Z.testbit flags 0.
Proof.
  unfold FlagUp. change 1 with (Z.ones 1). rewrite Z.land_ones by lia.
  rewrite Z.bit0_odd, Zmod_odd. destruct (Z.odd flags); reflexivity.
Qed.

(** Entered at index [j] with fewer than [8 * j] bits accumulated, the
    inner loop never wraps and consumes at most [8 - j] more bytes. *)
Lemma accumulate_no_wrap (addr : list Byte.byte) :
  forall j mac,
    0 <= j <= 8 ->
    0 <= mac < 2 ^ (8 * j) ->
    accumulate j mac addr
    = fold_left (fun acc b => acc * 256 + uint64_of_byte b)
        (firstn (Z.to_nat (8 - j)) addr) mac
    /\ 0 <= accumulate j mac addr < 2 ^ 64.
Proof.
  induction addr as [|b rest IH]; intros j mac Hj Hmac.
  - cbn [accumulate]. rewrite firstn_nil. cbn [fold_left]. split; [reflexivity|].
    assert (2 ^ (8 * j) <= 2 ^ 64) by (apply Z.pow_le_mono_r; lia). lia.
  - cbn [accumulate]. destruct (Z.leb_spec 8 j) as [Hge|Hlt].
    + assert (j = 8) by lia. subst j. cbn. split; [reflexivity|].
      cbn in Hmac. lia.
    + pose proof (uint64_of_byte_range b) as Hb.
      assert (Hstep : 0 <= mac * 256 + uint64_of_byte b < 2 ^ (8 * (j + 1))).
      { replace (8 * (j + 1)) with (8 * j + 8) by lia.
        rewrite Z.pow_add_r by lia. change (2 ^ 8) with 256. nia. }
      assert (Hcap : 2 ^ (8 * (j + 1)) <= 2 ^ 64)
        by (apply Z.pow_le_mono_r; lia).
      assert (Hshift : uint64_wrap (Z.shiftl mac 8) = mac * 256).
      { unfold uint64_wrap. rewrite Z.shiftl_mul_pow2 by lia.
        change (2 ^ 8) with 256. apply Z.mod_small. lia. }
      rewrite Hshift.
      assert (Hadd : uint64_wrap (mac * 256 + uint64_of_byte b)
                     = mac * 256 + uint64_of_byte b).
      { unfold uint64_wrap. apply Z.mod_small. lia. }
      rewrite Hadd.
      destruct (IH (j + 1) (mac * 256 + uint64_of_byte b)) as [Heq Hrange];
        [lia | exact Hstep |].
      split; [|exact Hrange].
      rewrite Heq.
      replace (Z.to_nat (8 - j)) with (S (Z.to_nat (8 - (j + 1)))) by lia.
      reflexivity.
Qed.

Lemma scan_interfaces_identity (interfaces : list Interface) :
  scan_interfaces interfaces = identity interfaces
  /\ 0 <= scan_interfaces interfaces < 2 ^ 64.
Proof.
  unfold identity.
  induction interfaces as [|i rest IH]; [cbn; lia|].
  cbn [scan_interfaces List.find]. unfold qualifies, is_up, has_address,
    locally_administered.
  rewrite land_FlagUp_testbit.
  destruct (Z.testbit (Flags i) 0); cbn [andb]; [|exact IH].
  destruct (HardwareAddr i) as [|b0 addr] eqn:Haddr; cbn [bytes_Compare_nil];
    [exact IH|].
  cbn [Z.eqb negb andb]. rewrite land_2_testbit.
  destruct (Z.testbit (uint64_of_byte b0) 1); cbn [negb]; [exact IH|].
  destruct (accumulate_no_wrap (b0 :: addr) 0 0) as [Heq Hrange];
    [lia | cbn; lia |].
  split; [|exact Hrange]. rewrite Heq, Haddr. reflexivity.
Qed.

(** C5. For every list of network interfaces, [getMacAddress] returns
    the big-endian accumulation of the first eight hardware-address bytes
    of the first interface that is up, has a non-empty hardware address
    and whose first octet has not its second-lowest bit set; it returns 0
    when no interface qualifies or the list cannot be obtained; the
    result is a 64-bit value. *)
Theorem getMacAddress_is_identity (interfaces : option (list Interface)) :
  getMacAddress interfaces
  = match interfaces with
    | Some l =>
        match List.find qualifies l with
        | Some i => big_endian (firstn 8 (HardwareAddr i))
        | None => 0
        end
    | None => 0
    end
  /\ 0 <= getMacAddress interfaces < 2 ^ 64.
Proof.
  destruct interfaces as [l|]; cbn [getMacAddress]; [|lia].
  exact (scan_interfaces_identity l).
Qed.

End MacAddressFacts.

(* ===================================================================== *)
(** * Theorems: the buffer upload policy *)
(* ===================================================================== *)

Section BufferFacts.
Import RendererGL.

(** After any upload the recorded length is the length just uploaded. *)
Lemma vertex_len_recorded st data err :
  rgl_vertex_buffer_len (state_after (RGL_UpdateVertexData st data err))
  = len data.
Proof.
  unfold RGL_UpdateVertexData, state_after.
  destruct (Z.eqb_spec (rgl_vertex_buffer_len st) (len data)); cbn; congruence.
Qed.

Lemma element_len_recorded st data err :
  rgl_element_buffer_len (state_after (RGL_UpdateElementData st data err))
  = len data.
Proof.
  unfold RGL_UpdateElementData, state_after.
  destruct (Z.eqb_spec (rgl_element_buffer_len st) (len data)); cbn; congruence.
Qed.

(** Each upload leaves the other buffer's recorded length alone. *)
Lemma vertex_upload_keeps_element_len st data err :
  rgl_element_buffer_len (state_after (RGL_UpdateVertexData st data err))
  = rgl_element_buffer_len st.
Proof.
  unfold RGL_UpdateVertexData, state_after.
  destruct (rgl_vertex_buffer_len st =? len data); reflexivity.
Qed.

Lemma element_upload_keeps_vertex_len st data err :
  rgl_vertex_buffer_len (state_after (RGL_UpdateElementData st data err))
  = rgl_vertex_buffer_len st.
Proof.
  unfold RGL_UpdateElementData, state_after.
  destruct (rgl_element_buffer_len st =? len data); reflexivity.
Qed.

Lemma vertex_call_by_recorded_len st data err :
  call_made (RGL_UpdateVertexData st data err)
  = expected_call ARRAY_BUFFER VertexStructSize (rgl_vertex_buffer_len st)
      (len data) (Vertices data).
Proof.
  unfold RGL_UpdateVertexData, call_made, expected_call.
  destruct (rgl_vertex_buffer_len st =? len data); reflexivity.
Qed.

Lemma element_call_by_recorded_len st data err :
  call_made (RGL_UpdateElementData st data err)
  = expected_call ELEMENT_ARRAY_BUFFER 4 (rgl_element_buffer_len st)
      (len data) (Elements data).
Proof.
  unfold RGL_UpdateElementData, call_made, expected_call.
  destruct (rgl_element_buffer_len st =? len data); reflexivity.
Qed.

Lemma element_uploads_keep_vertex_len (es : list (list Z * Z)) :
  forall st,
    rgl_vertex_buffer_len (element_uploads st es) = rgl_vertex_buffer_len st.
Proof.
  unfold element_uploads.
  induction es as [|e es IH]; intros st; [reflexivity|].
  cbn [fold_left]. rewrite IH. apply element_upload_keeps_vertex_len.
Qed.

Lemma vertex_uploads_keep_element_len (vs : list (list Vertex * Z)) :
  forall st,
    rgl_element_buffer_len (vertex_uploads st vs) = rgl_element_buffer_len st.
Proof.
  unfold vertex_uploads.
  induction vs as [|v vs IH]; intros st; [reflexivity|].
  cbn [fold_left]. rewrite IH. apply vertex_upload_keeps_element_len.
Qed.

(** C6. Two consecutive uploads to the vertex buffer, from any state and
    with any uploads to the element buffer in between: the second is a
    [BufferSubData] when its count equals the count of the first, and a
    [BufferData] when it differs, and it leaves its count recorded.  The
    same holds of two consecutive uploads to the element buffer. *)
Theorem consecutive_uploads_policy
    (st : state) (v1 v2 : list Vertex) (e1 e2 : list Z)
    (between_v : list (list Z * Z)) (between_e : list (list Vertex * Z))
    (err1 err2 : Z) :
  let second_v :=
    RGL_UpdateVertexData
      (element_uploads (state_after (RGL_UpdateVertexData st v1 err1))
         between_v)
      v2 err2 in
  let second_e :=
    RGL_UpdateElementData
      (vertex_uploads (state_after (RGL_UpdateElementData st e1 err1))
         between_e)
      e2 err2 in
  call_made second_v
  = (if len v1 =? len v2
     then BufferSubData ARRAY_BUFFER 0 (len v2 * VertexStructSize)
            (Vertices v2)
     else BufferData ARRAY_BUFFER (len v2 * VertexStructSize) (Vertices v2)
            STATIC_DRAW)
  /\ rgl_vertex_buffer_len (state_after second_v) = len v2
  /\ call_made second_e
     = (if len e1 =? len e2
        then BufferSubData ELEMENT_ARRAY_BUFFER 0 (len e2 * 4) (Elements e2)
        else BufferData ELEMENT_ARRAY_BUFFER (len e2 * 4) (Elements e2)
               STATIC_DRAW)
  /\ rgl_element_buffer_len (state_after second_e) = len e2.
Proof.
  intros second_v second_e. subst second_v second_e.
  rewrite vertex_call_by_recorded_len, element_call_by_recorded_len.
  rewrite element_uploads_keep_vertex_len, vertex_uploads_keep_element_len.
  rewrite !vertex_len_recorded, !element_len_recorded.
  unfold expected_call. repeat split; reflexivity.
Qed.

End BufferFacts.

(* ===================================================================== *)
(** * Theorems: the version check *)
(* ===================================================================== *)

Section VersionFacts.
Import NvimProc.

(** The check looks at the minor number alone. *)
Lemma requestApiInfo_fatal_iff_minor (v : version) :
  fails_fatally (requestApiInfo (Some v)) = (minor v <? 4).
Proof.
  unfold requestApiInfo. destruct (minor v <? 4); reflexivity.
Qed.

(** Below major version 1 the check agrees with the comparison against
    0.4.0. *)
Lemma requestApiInfo_right_for_major_0 (v : version) :
  major v = 0 -> 0 <= patch v ->
  fails_fatally (requestApiInfo (Some v)) = version_below v minimum_version.
Proof.
  intros Hmajor Hpatch. rewrite requestApiInfo_fatal_iff_minor.
  unfold version_below, minimum_version; cbn [major minor patch].
  rewrite Hmajor. cbn.
  destruct (Z.ltb_spec (minor v) 4); cbn; [reflexivity|].
  destruct (Z.eqb_spec (minor v) 4); cbn; [|reflexivity].
  symmetry. apply Z.ltb_ge. exact Hpatch.
Qed.

(** C9. The version 1.0.0 is not below 0.4.0, and the handshake fails
    fatally on it all the same: the check reads the minor number without
    the major one. *)
Theorem version_1_0_0_is_refused :
  version_below {| major := 1; minor := 0; patch := 0 |} minimum_version
  = false
  /\ fails_fatally
       (requestApiInfo (Some {| major := 1; minor := 0; patch := 0 |}))
     = true.
Proof. split; reflexivity. Qed.

End VersionFacts.

(* ===================================================================== *)
(** * Theorems: key tokens *)
(* ===================================================================== *)

Section KeyFacts.
Import Input.

Variable GetKeyName : Z -> Z -> string.

(** The token is the opening bracket, the active modifiers in the order
    C, S, A, D, the name and the closing bracket. *)
Lemma build_keycode_format (ctrl shift alt super : bool) (name : string) :
  build_keycode ctrl shift alt super name
  = "<" +:+ (if ctrl then "C-" else "") +:+ (if shift then "S-" else "")
    +:+ (if alt then "A-" else "") +:+ (if super then "D-" else "")
    +:+ name +:+ ">".
Proof. destruct ctrl, shift, alt, super; reflexivity. Qed.

Lemma handle_keycode_forwards (st : state) (keycode : string) :
  forwards (snd (handle_keycode st keycode)) keycode
  = negb (is_binding st keycode).
Proof.
  unfold handle_keycode, is_binding.
  destruct (String.eqb keycode (zoomInKey st)); [reflexivity|].
  destruct (String.eqb keycode (zoomOutKey st)); [reflexivity|].
  destruct (String.eqb keycode (toggleFullscreenKey st)); [reflexivity|].
  destruct (String.eqb keycode "<ESC>"); cbn; rewrite String.eqb_refl;
    reflexivity.
Qed.

Lemma handle_keycode_unbound (st : state) (keycode : string) :
  is_binding st keycode = false ->
  handle_keycode st keycode
  = ((if String.eqb keycode "<ESC>" && popupMenuEnabled st
      then popupMenu_Hide st else st),
     [NvimInput keycode]).
Proof.
  unfold handle_keycode, is_binding. intros H.
  destruct (String.eqb keycode (zoomInKey st)); [discriminate|].
  destruct (String.eqb keycode (zoomOutKey st)); [discriminate|].
  destruct (String.eqb keycode (toggleFullscreenKey st)); [discriminate|].
  destruct (String.eqb keycode "<ESC>"); reflexivity.
Qed.

(** A press or repeat of a key that is no modifier key runs the name
    resolution and then the switch. *)
Lemma KeyEventHandler_plain_key (st : state) (key scancode action mods : Z) :
  (action =? glfw.Release) = false ->
  ModifierKeys !! key = None ->
  KeyEventHandler GetKeyName st key scancode action mods
  = match resolve_keyname GetKeyName key scancode
            (has_mod mods glfw.ModControl) (has_mod mods glfw.ModShift)
            (has_mod mods glfw.ModAlt) (has_mod mods glfw.ModSuper) with
    | None => (st, [])
    | Some keyname =>
        handle_keycode st
          (build_keycode (has_mod mods glfw.ModControl)
             (has_mod mods glfw.ModShift) (has_mod mods glfw.ModAlt)
             (has_mod mods glfw.ModSuper) keyname)
    end.
Proof.
  intros Hact Hmod. unfold KeyEventHandler. rewrite Hmod, Hact. reflexivity.
Qed.

(** C7, as the code has it. For a press or repeat of a key that is no
    modifier key: a key of the named-key table takes its name from the
    table; a key outside the table is dropped when Shift, Alt or Super is
    active, and when Control alone is active it takes the platform's name
    or, if that name is empty, is dropped as well.  A named event builds
    the token [<], the prefixes of the active modifiers in the order C,
    S, A, D, the name, [>], and hands it to the switch, which forwards it
    unless it is one of the three bound tokens.  Control with the key "a"
    named "a" by the platform forwards [<C-a>] under the default
    bindings; Shift with "a" forwards nothing. *)
Theorem key_event_token (st : state) (key scancode action mods : Z)
    (Hact : (action =? glfw.Release) = false)
    (Hmod : ModifierKeys !! key = None) :
  let ctrl := has_mod mods glfw.ModControl in
  let shift := has_mod mods glfw.ModShift in
  let alt := has_mod mods glfw.ModAlt in
  let super := has_mod mods glfw.ModSuper in
  let token name :=
    "<" +:+ (if ctrl then "C-" else "") +:+ (if shift then "S-" else "")
    +:+ (if alt then "A-" else "") +:+ (if super then "D-" else "")
    +:+ name +:+ ">" in
  let result := KeyEventHandler GetKeyName st key scancode action mods in
  (forall name, SpecialKeys !! key = Some name ->
     result = handle_keycode st (token name))
  /\ (SpecialKeys !! key = None -> shift || alt || super = true ->
      result = (st, []))
  /\ (SpecialKeys !! key = None -> shift || alt || super = false ->
      ctrl = true -> GetKeyName key scancode <> "" ->
      result = handle_keycode st (token (GetKeyName key scancode)))
  /\ (SpecialKeys !! key = None -> shift || alt || super = false ->
      ctrl = true -> GetKeyName key scancode = "" ->
      result = (st, []))
  /\ (forall keycode, is_binding st keycode = false ->
      snd (handle_keycode st keycode) = [NvimInput keycode])
  /\ (GetKeyName glfw.KeyA scancode = "a" ->
      KeyEventHandler GetKeyName initial glfw.KeyA scancode glfw.Press
        glfw.ModControl
      = (initial, [NvimInput "<C-a>"]))
  /\ KeyEventHandler GetKeyName initial glfw.KeyA scancode glfw.Press
       glfw.ModShift
     = (initial, []).
Proof.
  intros ctrl shift alt super token result.
  assert (Hres : result
                 = match resolve_keyname GetKeyName key scancode ctrl shift
                           alt super with
                   | None => (st, [])
                   | Some keyname => handle_keycode st (token keyname)
                   end).
  { subst result token. rewrite (KeyEventHandler_plain_key _ _ _ _ _ Hact Hmod).
    destruct (resolve_keyname _ _ _ _ _ _ _); [|reflexivity].
    rewrite build_keycode_format. reflexivity. }
  unfold resolve_keyname in Hres.
  split; [|split; [|split; [|split; [|split; [|split]]]]].
  - intros name Hname. rewrite Hres, Hname. reflexivity.
  - intros Hnone Hsas. rewrite Hres, Hnone, Hsas. reflexivity.
  - intros Hnone Hsas Hctrl Hname. rewrite Hres, Hnone, Hsas, Hctrl.
    destruct (String.eqb_spec (GetKeyName key scancode) ""); [contradiction|].
    reflexivity.
  - intros Hnone Hsas Hctrl Hname. rewrite Hres, Hnone, Hsas, Hctrl, Hname.
    reflexivity.
  - intros keycode Hk. rewrite (handle_keycode_unbound _ _ Hk). reflexivity.
  - intros Ha. unfold KeyEventHandler, resolve_keyname.
    replace (ModifierKeys !! glfw.KeyA) with (@None string)
      by (vm_compute; reflexivity).
    replace (SpecialKeys !! glfw.KeyA) with (@None string)
      by (vm_compute; reflexivity).
    cbn. rewrite Ha. reflexivity.
  - unfold KeyEventHandler, resolve_keyname.
    replace (ModifierKeys !! glfw.KeyA) with (@None string)
      by (vm_compute; reflexivity).
    replace (SpecialKeys !! glfw.KeyA) with (@None string)
      by (vm_compute; reflexivity).
    reflexivity.
Qed.

(** C8, as the code has it. A keycode is kept from the backend exactly
    when it equals one of the three bound tokens, and then the state is
    left alone; any other keycode is forwarded.  The escape token, when
    it is not bound and the popup menu is enabled, closes the menu and is
    forwarded too, whether a menu is visible or not. *)
Theorem consumed_keycodes (st : state) (keycode : string) (scancode : Z) :
  forwards (snd (handle_keycode st keycode)) keycode
  = negb (is_binding st keycode)
  /\ (is_binding st keycode = true ->
      fst (handle_keycode st keycode) = st
      /\ In (snd (handle_keycode st keycode))
           [[IncreaseFontSize]; [DecreaseFontSize]; [ToggleFullscreen]])
  /\ (is_binding st keycode = false ->
      snd (handle_keycode st keycode) = [NvimInput keycode]
      /\ fst (handle_keycode st keycode)
         = if String.eqb keycode "<ESC>" && popupMenuEnabled st
           then popupMenu_Hide st else st)
  /\ (is_binding st "<ESC>" = false ->
      KeyEventHandler GetKeyName st glfw.KeyEscape scancode glfw.Press 0
      = ((if popupMenuEnabled st then popupMenu_Hide st else st),
         [NvimInput "<ESC>"])).
Proof.
  split; [apply handle_keycode_forwards|].
  split; [|split].
  - unfold handle_keycode, is_binding. intros H.
    destruct (String.eqb keycode (zoomInKey st)); [cbn; auto|].
    destruct (String.eqb keycode (zoomOutKey st)); [cbn; auto|].
    destruct (String.eqb keycode (toggleFullscreenKey st)); [cbn; auto|].
    discriminate.
  - intros H. rewrite (handle_keycode_unbound _ _ H). split; reflexivity.
  - intros H. unfold KeyEventHandler, resolve_keyname.
    replace (ModifierKeys !! glfw.KeyEscape) with (@None string)
      by (vm_compute; reflexivity).
    replace (SpecialKeys !! glfw.KeyEscape) with (Some "ESC")
      by (vm_compute; reflexivity).
    cbn -[handle_keycode].
    change (build_keycode _ _ _ _ "ESC") with "<ESC>".
    rewrite (handle_keycode_unbound _ _ H). reflexivity.
Qed.

End KeyFacts.

(** C7, a witness: Control with F5, a key of the table. *)
Lemma key_event_token_witness :
  (glfw.Press =? glfw.Release) = false
  /\ Input.ModifierKeys !! glfw.KeyF5 = None
  /\ Input.KeyEventHandler (fun _ _ => "") Input.initial glfw.KeyF5 0
       glfw.Press glfw.ModControl
     = Input.handle_keycode Input.initial "<C-F5>".
Proof.
  split; [reflexivity|]. split; [vm_compute; reflexivity|].
  apply (proj1 (key_event_token (fun _ _ => "") Input.initial glfw.KeyF5 0
                  glfw.Press glfw.ModControl eq_refl eq_refl) "F5").
  vm_compute; reflexivity.
Defined.

(** C7, where the claim as worded fails: Control alone is active, the
    caps-lock key is neither a modifier key of the table nor a named key,
    and the platform has no name for it.  The claim drops an event only
    under Shift, Alt or Super and would forward the token [<C->] here;
    the callback forwards nothing. *)
Lemma control_key_without_platform_name :
  (glfw.Press =? glfw.Release) = false
  /\ Input.ModifierKeys !! glfw.KeyCapsLock = None
  /\ Input.SpecialKeys !! glfw.KeyCapsLock = None
  /\ Input.has_mod glfw.ModControl glfw.ModControl = true
  /\ Input.has_mod glfw.ModControl glfw.ModShift
     || Input.has_mod glfw.ModControl glfw.ModAlt
     || Input.has_mod glfw.ModControl glfw.ModSuper = false
  /\ Input.build_keycode true false false false "" = "<C->"
  /\ Input.KeyEventHandler (fun _ _ => "") Input.initial glfw.KeyCapsLock 0
       glfw.Press glfw.ModControl
     = (Input.initial, []).
Proof. vm_compute. repeat split. Qed.

(** C8, a witness: [<F11>] is bound under the default bindings and a
    press of it is consumed. *)
Lemma consumed_keycodes_witness :
  Input.is_binding Input.initial "<F11>" = true
  /\ fst (Input.handle_keycode Input.initial "<F11>") = Input.initial
  /\ In (snd (Input.handle_keycode Input.initial "<F11>"))
       [[Input.IncreaseFontSize]; [Input.DecreaseFontSize];
        [Input.ToggleFullscreen]].
Proof.
  split; [reflexivity|].
  apply (proj1 (proj2 (consumed_keycodes (fun _ _ => "") Input.initial
                         "<F11>" 0))).
  reflexivity.
Defined.

(** C8, where the claim as worded fails: with the popup menu enabled and
    visible, a press of escape closes the menu and is handed to the
    backend all the same. *)
Lemma escape_with_visible_menu_is_forwarded :
  let st :=
    {| Input.lastMouseModifiers := "";
       Input.zoomInKey := "<C-+>";
       Input.zoomOutKey := "<C-->";
       Input.toggleFullscreenKey := "<F11>";
       Input.popupMenuEnabled := true;
       Input.popupMenuVisible := true |} in
  Input.KeyEventHandler (fun _ _ => "") st glfw.KeyEscape 0 glfw.Press 0
  = (Input.popupMenu_Hide st, [Input.NvimInput "<ESC>"])
  /\ Input.popupMenuVisible (Input.popupMenu_Hide st) = false
  /\ Input.forwards
       (snd (Input.KeyEventHandler (fun _ _ => "") st glfw.KeyEscape 0
               glfw.Press 0)) "<ESC>"
     = true.
Proof. vm_compute. repeat split. Qed.

(* ===================================================================== *)
(** * Theorems: encoding and decoding a call *)
(* ===================================================================== *)

Section JsonFacts.
Import Go Json Ipc.

(** Induction over values that reaches inside slices and maps. *)
Lemma value_nested_ind (P : value -> Prop) :
  P VNil ->
  (forall b, P (VBool b)) ->
  (forall n, P (VInt n)) ->
  (forall f, P (VFloat64 f)) ->
  (forall s, P (VString s)) ->
  (forall l, Forall P l -> P (VSlice l)) ->
  (forall m, Forall (fun kv => P (snd kv)) m -> P (VMap m)) ->
  forall v, P v.
Proof.
  intros Hnil Hbool Hint Hfloat Hstring Hslice Hmap.
  fix IH 1. intros [ | b | n | f | s | l | m].
  - exact Hnil.
  - apply Hbool.
  - apply Hint.
  - apply Hfloat.
  - apply Hstring.
  - apply Hslice. induction l as [|x l IHl]; constructor; [apply IH | exact IHl].
  - apply Hmap. induction m as [|[k x] m IHm]; constructor;
      [apply IH | exact IHm].
Qed.

(** Valid UTF-8 passes the encoder unchanged. *)
Lemma coerce_utf8_from_valid (s : string) :
  forall pending,
    valid_utf8_from pending s = true -> coerce_utf8_from pending s = s.
Proof.
  induction s as [|b r IH]; intros pending Hvalid; [reflexivity|].
  cbn [valid_utf8_from coerce_utf8_from] in *.
  destruct pending as [|p].
  - destruct (rune_width (String b r)) as [|k]; [discriminate|].
    rewrite (IH k Hvalid). reflexivity.
  - rewrite (IH p Hvalid). reflexivity.
Qed.

Lemma coerce_utf8_valid (s : string) :
  valid_utf8 s = true -> coerce_utf8 s = s.
Proof. apply coerce_utf8_from_valid. Qed.

(** An invalid byte does not survive: the claim of exactness needs the
    validity. *)
Example coerce_utf8_replaces :
  coerce_utf8 (String (ascii_of_N 255) "a")
  = String (ascii_of_N 239) (String (ascii_of_N 191)
      (String (ascii_of_N 189) "a")).
Proof. reflexivity. Qed.

Lemma sequence_length {A} (l : list (option A)) (xs : list A) :
  sequence l = Some xs -> length xs = length l.
Proof.
  revert xs. induction l as [|[x|] l IH]; intros xs H; cbn in H.
  - injection H as <-. reflexivity.
  - destruct (sequence l) as [ys|]; [|discriminate].
    injection H as <-. cbn. f_equal. apply IH. reflexivity.
  - discriminate.
Qed.

(** Inserting a key above all present keys appends it. *)
Lemma assoc_insert_above {A} (k : string) (v : A) (m : list (string * A)) :
  Forall (fun kv => String.compare (fst kv) k = Lt) m ->
  assoc_insert k v m = m ++ [(k, v)].
Proof.
  induction 1 as [|[k' v'] m Hlt _ IH]; [reflexivity|].
  cbn [assoc_insert fst] in *.
  rewrite String.compare_antisym, Hlt. cbn. rewrite IH. reflexivity.
Qed.

Lemma fold_insert_increasing {A} (l : list (string * A)) :
  forall acc,
    Forall (fun kv =>
              Forall (fun kv' => String.compare (fst kv) (fst kv') = Lt) l)
      acc ->
    strictly_increasing (map fst l) = true ->
    fold_left (fun m kv => assoc_insert (fst kv) (snd kv) m) l acc
    = acc ++ l.
Proof.
  induction l as [|[k v] l IH]; intros acc Hacc Hinc.
  - cbn. rewrite app_nil_r. reflexivity.
  - cbn [map fst strictly_increasing] in Hinc.
    apply andb_prop in Hinc as [Hhead Htail].
    cbn [fold_left fst snd].
    rewrite assoc_insert_above.
    + rewrite IH.
      * rewrite <- app_assoc. reflexivity.
      * apply Forall_app. split.
        -- eapply Forall_impl; [exact Hacc|].
           intros kv Hkv. cbn in Hkv. inversion Hkv. assumption.
        -- constructor; [|constructor]. cbn [fst].
           rewrite forallb_forall in Hhead.
           apply Forall_forall. intros [k' v'] Hin. cbn [fst].
           apply list_elem_of_In in Hin.
           specialize (Hhead k' (in_map fst _ _ Hin)). cbn in Hhead.
           destruct (String.compare k k'); congruence.
      * exact Htail.
    + eapply Forall_impl; [exact Hacc|].
      intros kv Hkv. cbn in Hkv. inversion Hkv. assumption.
Qed.

Lemma assoc_of_list_increasing {A} (l : list (string * A)) :
  strictly_increasing (map fst l) = true -> assoc_of_list l = l.
Proof.
  intros H. unfold assoc_of_list.
  rewrite fold_insert_increasing; [reflexivity | constructor | exact H].
Qed.

Lemma slice_round_trips (l : list value) :
  Forall (fun v => json_native v = true -> round_trips v) l ->
  forallb json_native l = true ->
  exists js,
    sequence (map encode_value l) = Some js
    /\ sequence (map decode_value js) = Some l.
Proof.
  induction 1 as [|v l Hv _ IH]; intros Hnative.
  - exists []. split; reflexivity.
  - cbn [forallb] in Hnative. apply andb_prop in Hnative as [Hv' Hl'].
    destruct (Hv Hv') as (j & Hj & Hj').
    destruct (IH Hl') as (js & Hjs & Hjs').
    exists (j :: js). cbn [map sequence]. rewrite Hj, Hjs, Hj', Hjs'.
    split; reflexivity.
Qed.

Lemma map_round_trips (m : list (string * value)) :
  Forall (fun kv => json_native (snd kv) = true -> round_trips (snd kv)) m ->
  forallb
    (fun kv => match kv with (k, x) => valid_utf8 k && json_native x end) m
  = true ->
  exists es,
    sequence_snd
      (map (fun kv => match kv with (k, x) => (k, encode_value x) end) m)
    = Some es
    /\ map fst es = map fst m
    /\ map (fun kv => (coerce_utf8 (fst kv), snd kv)) es = es
    /\ sequence_snd
         (map (fun kv => match kv with (k, x) => (k, decode_value x) end) es)
       = Some m.
Proof.
  unfold sequence_snd.
  induction 1 as [|[k x] m Hx _ IH]; intros Hnative.
  - exists []. repeat split.
  - cbn [forallb] in Hnative. apply andb_prop in Hnative as [Hkx Hm].
    apply andb_prop in Hkx as [Hk Hx'].
    destruct (Hx Hx') as (j & Hj & Hj'). cbn [snd] in *.
    destruct (IH Hm) as (es & Hes & Hkeys & Hco & Hes').
    exists ((k, j) :: es). cbn [map sequence fst snd option_map].
    rewrite Hj. cbn [option_map]. rewrite Hes, Hj'. cbn [option_map].
    rewrite Hes', Hkeys, Hco, (coerce_utf8_valid k Hk).
    repeat split.
Qed.

(** Every value of the decoder's own forms round-trips. *)
Lemma native_round_trips (v : value) :
  json_native v = true -> round_trips v.
Proof.
  induction v as [ | b | n | f | s | l IH | m IH ] using value_nested_ind;
    intros Hnative; cbn [json_native] in Hnative.
  - exists JNull. split; reflexivity.
  - exists (JBool b). split; reflexivity.
  - discriminate.
  - exists (JNumber (NumFloat f)). cbn. rewrite Hnative. split; reflexivity.
  - exists (JString s). cbn. rewrite (coerce_utf8_valid s Hnative).
    split; reflexivity.
  - destruct (slice_round_trips l IH Hnative) as (js & Hjs & Hjs').
    exists (JArray js). cbn [encode_value decode_value].
    rewrite Hjs, Hjs'. split; reflexivity.
  - apply andb_prop in Hnative as [Hinc Hall].
    destruct (map_round_trips m IH Hall) as (es & Hes & Hkeys & Hco & Hes').
    exists (JObject es). cbn [encode_value decode_value].
    rewrite Hes. cbn [option_map].
    rewrite (assoc_of_list_increasing es) by (rewrite Hkeys; exact Hinc).
    rewrite Hco, Hes'. cbn [option_map].
    rewrite (assoc_of_list_increasing m Hinc). split; reflexivity.
Qed.

(** What decoding the three members written by [Marshal] does. *)
Lemma Unmarshal_three_members (t a : Z) (args : json) :
  Unmarshal
    (Text (JObject [("MsgType", JNumber (NumInt t));
                    ("MacAddress", JNumber (NumInt a)); ("Args", args)]))
  = if in_int t then
      if in_uint64 a then
        match decode_slice args with
        | Some s => Some {| MsgType := t; MacAddress := a; Args := s |}
        | None => None
        end
      else None
    else None.
Proof.
  cbn -[in_int in_uint64]. destruct (in_int t); [|reflexivity].
  destruct (Z.ltb_spec a 0) as [Hneg|Hpos]; cbn -[in_uint64].
  - replace (in_uint64 a) with false; [reflexivity|].
    unfold in_uint64. destruct (Z.leb_spec 0 a); [lia | reflexivity].
  - destruct (in_uint64 a); [|reflexivity].
    destruct (decode_slice args); reflexivity.
Qed.

(** Whatever the arguments, a call that comes back from the decoder has
    its type, its identity, the number of its arguments and the nilness
    of its argument slice unchanged. *)
Lemma roundtrip_keeps_header (c c' : IpcFuncCall) :
  roundtrip c = Some c' ->
  MsgType c' = MsgType c
  /\ MacAddress c' = MacAddress c
  /\ slice_len (Args c') = slice_len (Args c)
  /\ (Args c' = None <-> Args c = None).
Proof.
  destruct c as [t a args]. unfold roundtrip, Marshal.
  cbn [Ipc.Args Ipc.MsgType Ipc.MacAddress].
  destruct args as [l|].
  - destruct (sequence (map encode_value l)) as [js|] eqn:Hjs;
      cbn [option_map]; [|discriminate].
    rewrite Unmarshal_three_members.
    destruct (in_int t); [|discriminate].
    destruct (in_uint64 a); [|discriminate].
    cbn [decode_slice].
    destruct (sequence (map decode_value js)) as [l'|] eqn:Hl';
      cbn [option_map]; [|discriminate].
    intros [= <-]. cbn.
    apply sequence_length in Hjs. apply sequence_length in Hl'.
    rewrite length_map in Hjs, Hl'.
    repeat split; try congruence; discriminate.
  - rewrite Unmarshal_three_members.
    destruct (in_int t); [|discriminate].
    destruct (in_uint64 a); [|discriminate].
    cbn. intros [= <-]. cbn. repeat split; reflexivity.
Qed.

(** A call within the ranges of its integer fields whose arguments are
    all of the decoder's own forms comes back exactly. *)
Lemma roundtrip_native (c : IpcFuncCall) :
  in_int (MsgType c) = true ->
  in_uint64 (MacAddress c) = true ->
  args_native (Args c) = true ->
  exists j, Marshal c = Some j /\ Unmarshal (Text j) = Some c.
Proof.
  destruct c as [t a args]. cbn [Ipc.MsgType Ipc.MacAddress Ipc.Args].
  intros Ht Ha Hargs. unfold Marshal. cbn [Ipc.Args Ipc.MsgType Ipc.MacAddress].
  destruct args as [l|].
  - cbn [args_native] in Hargs.
    destruct (slice_round_trips l) as (js & Hjs & Hjs'); [|exact Hargs|].
    { apply Forall_forall. intros v _. apply native_round_trips. }
    rewrite Hjs. cbn [option_map]. eexists. split; [reflexivity|].
    rewrite Unmarshal_three_members, Ht, Ha. cbn [decode_slice].
    rewrite Hjs'. reflexivity.
  - eexists. split; [reflexivity|].
    rewrite Unmarshal_three_members, Ht, Ha. reflexivity.
Qed.

Lemma message_types_in_int :
  Forall (fun t => in_int t = true) message_types.
Proof. repeat constructor. Qed.

(** C1, as the code has it. For each of the five message types, a call
    whose identity is a uint64 and whose arguments all have forms the
    decoder itself yields -- nil, booleans, finite float64s, strings of
    valid UTF-8, slices and maps of such -- encodes, and decodes to a
    record with the same MsgType and Args (and identity).  Whatever the
    arguments are, a record that comes back has the same MsgType and the
    same number of arguments. *)
Theorem marshal_unmarshal_call (c : IpcFuncCall) :
  (In (MsgType c) message_types ->
   in_uint64 (MacAddress c) = true ->
   args_native (Args c) = true ->
   roundtrip c = Some c)
  /\ (forall c', roundtrip c = Some c' ->
      MsgType c' = MsgType c
      /\ MacAddress c' = MacAddress c
      /\ slice_len (Args c') = slice_len (Args c)).
Proof.
  split.
  - intros Ht Ha Hargs.
    assert (Hint : in_int (MsgType c) = true).
    { pose proof message_types_in_int as Hall.
      rewrite Forall_forall in Hall. apply Hall.
      apply list_elem_of_In. exact Ht. }
    destruct (roundtrip_native c Hint Ha Hargs) as (j & Hj & Hj').
    unfold roundtrip. rewrite Hj. exact Hj'.
  - intros c' H. destruct (roundtrip_keeps_header c c' H) as (? & ? & ? & _).
    auto.
Qed.

End JsonFacts.

(** C1, a witness: an OPEN_FILE call with a path. *)
Lemma marshal_unmarshal_call_witness :
  let c := {| Ipc.MsgType := Ipc.IPC_MSG_TYPE_OPEN_FILE;
              Ipc.MacAddress := 1;
              Ipc.Args := Some [Go.VString "foo.txt"] |} in
  In (Ipc.MsgType c) Ipc.message_types
  /\ Go.in_uint64 (Ipc.MacAddress c) = true
  /\ Json.args_native (Ipc.Args c) = true
  /\ Ipc.roundtrip c = Some c.
Proof.
  cbv zeta.
  split; [cbn; tauto|]. split; [reflexivity|]. split; [reflexivity|].
  apply (proj1 (marshal_unmarshal_call _)); [cbn; tauto | reflexivity..].
Defined.

(** C1, where the claim as worded fails: the line number of a GOTO_LINE
    call passed as the [int] 5 comes back as the float64 5, so the
    decoded Args differ from the ones encoded. *)
Lemma int_argument_comes_back_as_float64 :
  Ipc.roundtrip
    {| Ipc.MsgType := Ipc.IPC_MSG_TYPE_GOTO_LINE;
       Ipc.MacAddress := 1;
       Ipc.Args := Some [Go.VInt 5] |}
  = Some {| Ipc.MsgType := Ipc.IPC_MSG_TYPE_GOTO_LINE;
            Ipc.MacAddress := 1;
            Ipc.Args := Some [Go.VFloat64 (Go.float64_of_Z 5)] |}
  /\ Some [Go.VFloat64 (Go.float64_of_Z 5)] <> Some [Go.VInt 5].
Proof. split; [reflexivity | discriminate]. Qed.

(* ===================================================================== *)
(** * Theorems: the client's call *)
(* ===================================================================== *)

Section ClientFacts.
Import Go Json Log Ipc.

(** The result and the closing of a call whose reply was decoded. *)
Lemma Call_decoded (client : IpcClient) (msgType : IpcMessageType)
    (args : slice value) (request : json) (data : payload)
    (reply : IpcFuncCall) :
  Marshal {| MsgType := msgType; MacAddress := client_mac client;
             Args := args |} = Some request ->
  Unmarshal data = Some reply ->
  call_ok (Call client msgType args true (ReadBytes data))
  = fst (fst (check_response client reply))
  /\ call_closed (Call client msgType args true (ReadBytes data))
     = snd (fst (check_response client reply)).
Proof.
  intros Hreq Hreply. unfold Call. rewrite Hreq, Hreply. cbn [negb].
  destruct (check_response client reply) as [[ok closed] logs].
  split; reflexivity.
Qed.

(** C2. [Call] fails when the request cannot be encoded, when the write
    or the read fails, and when the reply cannot be decoded.  For a
    decoded reply: a machine identity other than the client's own gives
    failure; with the client's identity, CLOSE closes the connection and
    gives success, OK gives success and leaves the connection open, and
    any other type gives failure. *)
Theorem Call_result (client : IpcClient) (msgType : IpcMessageType)
    (args : slice value) (write_ok : bool) (rd : read_result) :
  let request :=
    Marshal {| MsgType := msgType; MacAddress := client_mac client;
               Args := args |} in
  let r := Call client msgType args write_ok rd in
  (request = None -> call_ok r = false)
  /\ (write_ok = false -> call_ok r = false)
  /\ (rd = ReadError -> call_ok r = false)
  /\ (forall data, rd = ReadBytes data -> Unmarshal data = None ->
      call_ok r = false)
  /\ (forall data reply,
        request <> None -> write_ok = true -> rd = ReadBytes data ->
        Unmarshal data = Some reply ->
        (MacAddress reply <> client_mac client ->
         call_ok r = false /\ call_closed r = false)
        /\ (MacAddress reply = client_mac client ->
            MsgType reply = IPC_MSG_TYPE_CLOSE_CONN ->
            call_ok r = true /\ call_closed r = true)
        /\ (MacAddress reply = client_mac client ->
            MsgType reply = IPC_MSG_TYPE_OK ->
            call_ok r = true /\ call_closed r = false)
        /\ (MacAddress reply = client_mac client ->
            MsgType reply <> IPC_MSG_TYPE_CLOSE_CONN ->
            MsgType reply <> IPC_MSG_TYPE_OK ->
            call_ok r = false /\ call_closed r = false)).
Proof.
  intros request r. subst request r.
  split; [|split; [|split; [|split]]].
  - intros H. unfold Call. rewrite H. reflexivity.
  - intros ->. unfold Call. destruct (Marshal _); reflexivity.
  - intros ->. unfold Call. destruct (Marshal _); [|reflexivity].
    destruct write_ok; reflexivity.
  - intros data -> H. unfold Call. destruct (Marshal _); [|reflexivity].
    destruct write_ok; [|reflexivity]. cbn [negb]. rewrite H. reflexivity.
  - intros data reply Hreq -> -> Hreply.
    destruct (Marshal _) as [request|] eqn:Hmarshal; [|contradiction].
    destruct (Call_decoded client msgType args request data reply Hmarshal
                Hreply) as [-> ->].
    unfold check_response.
    split; [|split; [|split]].
    + intros Hmac. apply Z.eqb_neq in Hmac. rewrite Hmac. split; reflexivity.
    + intros -> ->. rewrite Z.eqb_refl. split; reflexivity.
    + intros -> ->. rewrite Z.eqb_refl. split; reflexivity.
    + intros -> Hclose Hok. rewrite Z.eqb_refl.
      apply Z.eqb_neq in Hclose, Hok. cbn [negb]. rewrite Hclose, Hok.
      split; reflexivity.
Qed.

End ClientFacts.

(** C2, a witness: the server's CLOSE reply to a client of identity 7. *)
Lemma Call_result_witness :
  let client := {| Ipc.client_mac := 7 |} in
  let reply := {| Ipc.MsgType := Ipc.IPC_MSG_TYPE_CLOSE_CONN;
                  Ipc.MacAddress := 7; Ipc.Args := None |} in
  let data :=
    Json.Text
      (Json.JObject [("MsgType", Json.JNumber (Json.NumInt 1));
                     ("MacAddress", Json.JNumber (Json.NumInt 7));
                     ("Args", Json.JNull)]) in
  let r :=
    Ipc.Call client Ipc.IPC_MSG_TYPE_CLOSE_CONN None true (Ipc.ReadBytes data)
  in
  Ipc.Unmarshal data = Some reply
  /\ Ipc.call_ok r = true /\ Ipc.call_closed r = true.
Proof.
  cbv zeta. split; [reflexivity|].
  pose proof (Call_result {| Ipc.client_mac := 7 |}
                Ipc.IPC_MSG_TYPE_CLOSE_CONN None true
                (Ipc.ReadBytes
                   (Json.Text
                      (Json.JObject
                         [("MsgType", Json.JNumber (Json.NumInt 1));
                          ("MacAddress", Json.JNumber (Json.NumInt 7));
                          ("Args", Json.JNull)])))) as H.
  cbv zeta in H. destruct H as (_ & _ & _ & _ & H).
  destruct (H _ _ ltac:(discriminate) eq_refl eq_refl eq_refl)
    as (_ & Hclose & _).
  exact (Hclose eq_refl eq_refl).
Defined.

(* ===================================================================== *)
(** * Theorems: the server's connection goroutine and its queue *)
(* ===================================================================== *)

Section ServerFacts.
Import Go Json Log Ipc.

Lemma Marshal_without_args (t a : Z) :
  Marshal {| MsgType := t; MacAddress := a; Args := None |}
  = Some (JObject [("MsgType", JNumber (NumInt t));
                   ("MacAddress", JNumber (NumInt a)); ("Args", JNull)]).
Proof. reflexivity. Qed.

Lemma Unmarshal_without_args (t a : Z) :
  in_int t = true -> in_uint64 a = true ->
  Unmarshal
    (Text (JObject [("MsgType", JNumber (NumInt t));
                    ("MacAddress", JNumber (NumInt a)); ("Args", JNull)]))
  = Some {| MsgType := t; MacAddress := a; Args := None |}.
Proof.
  intros Ht Ha. rewrite Unmarshal_three_members, Ht, Ha. reflexivity.
Qed.

(** One pass of the goroutine on a message that decodes. *)
Lemma handle_read_decoded (server : IpcServer) (encodedOK encodedCLOSE : json)
    (data : payload) (funcCall : IpcFuncCall) (write_ok : bool) :
  Unmarshal data = Some funcCall ->
  handle_read server encodedOK encodedCLOSE (ReadBytes data) write_ok
  = if negb (MacAddress funcCall =? server_mac server) then
      {| it_server := server; it_written := [];
         it_logs :=
           [(WARN, "Signal Rejected: Connected client is not running on same machine.")];
         it_flow := Break |}
    else if MsgType funcCall =? IPC_MSG_TYPE_CLOSE_CONN then
      {| it_server := server; it_written := [encodedCLOSE];
         it_logs :=
           if write_ok then [(TRACE, "Client")]
           else [(TRACE, "Client");
                 (WARN, "Failed to send response to client.")];
         it_flow := if write_ok then Return else Continue |}
    else
      {| it_server := appendNewCall server funcCall;
         it_written := [encodedOK];
         it_logs :=
           if write_ok then []
           else [(WARN, "Failed to send response to client.")];
         it_flow := Continue |}.
Proof.
  intros H. unfold handle_read. rewrite H.
  destruct (negb _); [reflexivity|].
  destruct (MsgType funcCall =? _); [|reflexivity].
  destruct write_ok; reflexivity.
Qed.

(** No pass touches the listener or the server's identity. *)
Lemma handle_read_keeps_listener (server : IpcServer)
    (encodedOK encodedCLOSE : json) (rd : read_result) (write_ok : bool) :
  listener_open
    (it_server (handle_read server encodedOK encodedCLOSE rd write_ok))
  = listener_open server.
Proof.
  unfold handle_read. destruct rd as [|data]; [reflexivity|].
  destruct (Unmarshal data) as [funcCall|]; [|reflexivity].
  destruct (negb _); [reflexivity|].
  destruct (MsgType funcCall =? _); [destruct write_ok; reflexivity|].
  reflexivity.
Qed.

Lemma handle_conn_keeps_listener (encodedOK encodedCLOSE : json)
    (script : list (read_result * bool)) :
  forall server,
    listener_open (run_server (handle_conn server encodedOK encodedCLOSE script))
    = listener_open server.
Proof.
  induction script as [|[rd w] rest IH]; intros server; [reflexivity|].
  cbn [handle_conn].
  pose proof (handle_read_keeps_listener server encodedOK encodedCLOSE rd w)
    as Hstep.
  destruct (it_flow _); cbn [run_server]; [|exact Hstep..].
  rewrite IH. exact Hstep.
Qed.

(** A run of failing reads leaves the goroutine in its loop. *)
Lemma handle_conn_failing_reads (server : IpcServer)
    (encodedOK encodedCLOSE : json) (script : list (read_result * bool)) :
  Forall (fun step => fst step = ReadError) script ->
  handle_conn server encodedOK encodedCLOSE script
  = {| run_server := server; run_written := [];
       run_logs :=
         map (fun _ => (WARN, "Failed to read client data:")) script;
       run_closed := false |}.
Proof.
  induction 1 as [|[rd w] rest Hrd _ IH]; [reflexivity|].
  cbn [fst] in Hrd. subst rd. cbn [handle_conn handle_read it_flow it_server
    it_written it_logs]. rewrite IH. reflexivity.
Qed.

(** A call from a client of the server's own identity, of a type other
    than CLOSE and with arguments of the decoder's own forms: the call is
    queued as sent and the client is told OK. *)
Lemma call_against_same_identity (server : IpcServer) (client : IpcClient)
    (t : IpcMessageType) (args : slice value) :
  in_uint64 (server_mac server) = true ->
  client_mac client = server_mac server ->
  in_int t = true ->
  t <> IPC_MSG_TYPE_CLOSE_CONN ->
  args_native args = true ->
  exists it res,
    call_against server client t args = Some (it, res)
    /\ it_server it
       = appendNewCall server
           {| MsgType := t; MacAddress := server_mac server; Args := args |}
    /\ it_flow it = Continue
    /\ call_ok res = true
    /\ call_closed res = false.
Proof.
  intros Hsrv Hmac Ht Hclose Hargs.
  destruct (roundtrip_native
              {| MsgType := t; MacAddress := server_mac server; Args := args |}
              Ht Hsrv Hargs) as (request & Hreq & Hun).
  unfold call_against, encoded_replies.
  rewrite !Marshal_without_args, Hmac, Hreq.
  rewrite (handle_read_decoded _ _ _ _ _ _ Hun).
  cbn [MacAddress MsgType]. rewrite Z.eqb_refl.
  apply Z.eqb_neq in Hclose. rewrite Hclose. cbn [negb it_written].
  eexists _, _. split; [reflexivity|]. cbn [it_server it_flow].
  split; [reflexivity|]. split; [reflexivity|].
  unfold Call. rewrite Hmac, Hreq. cbn [negb].
  rewrite (Unmarshal_without_args IPC_MSG_TYPE_OK _ eq_refl Hsrv).
  unfold check_response. cbn [MacAddress MsgType]. rewrite Hmac, Z.eqb_refl.
  split; reflexivity.
Qed.

(** The same call under another identity: the goroutine leaves its loop
    without a reply and without queuing, and the client's read fails. *)
Lemma call_against_other_identity (server : IpcServer) (client : IpcClient)
    (t : IpcMessageType) (args : slice value) :
  in_uint64 (server_mac server) = true ->
  in_uint64 (client_mac client) = true ->
  client_mac client <> server_mac server ->
  in_int t = true ->
  args_native args = true ->
  exists it res,
    call_against server client t args = Some (it, res)
    /\ it_server it = server
    /\ it_written it = []
    /\ it_flow it = Break
    /\ call_ok res = false.
Proof.
  intros Hsrv Hcli Hmac Ht Hargs.
  destruct (roundtrip_native
              {| MsgType := t; MacAddress := client_mac client; Args := args |}
              Ht Hcli Hargs) as (request & Hreq & Hun).
  unfold call_against, encoded_replies.
  rewrite !Marshal_without_args, Hreq.
  rewrite (handle_read_decoded _ _ _ _ _ _ Hun).
  cbn [MacAddress MsgType].
  apply Z.eqb_neq in Hmac. rewrite Hmac. cbn [negb it_written].
  eexists _, _. split; [reflexivity|]. cbn [it_server it_flow it_written].
  repeat (split; [reflexivity|]).
  unfold Call. rewrite Hreq. reflexivity.
Qed.

(** C3, as the code has it. A failed read is logged and the goroutine
    goes on to its next read with the server untouched; a reply whose
    write fails is logged and the goroutine goes on as well.  Neither
    drops the connection: a run of failing reads leaves it open, and the
    goroutine leaves its loop only on a message of another identity or
    after a CLOSE reply whose write succeeded.  No run of a connection
    goroutine changes the server's listener. *)
Theorem transport_failure_is_logged (server : IpcServer)
    (encodedOK encodedCLOSE : json) :
  (forall write_ok,
     handle_read server encodedOK encodedCLOSE ReadError write_ok
     = {| it_server := server; it_written := [];
          it_logs := [(WARN, "Failed to read client data:")];
          it_flow := Continue |})
  /\ (forall data funcCall,
        Unmarshal data = Some funcCall ->
        MacAddress funcCall = server_mac server ->
        let it :=
          handle_read server encodedOK encodedCLOSE (ReadBytes data) false in
        it_flow it = Continue
        /\ In (WARN, "Failed to send response to client.") (it_logs it))
  /\ (forall script,
        Forall (fun step => fst step = ReadError) script ->
        let run := handle_conn server encodedOK encodedCLOSE script in
        run_closed run = false
        /\ run_server run = server
        /\ length (run_logs run) = length script)
  /\ (forall script,
        listener_open
          (run_server (handle_conn server encodedOK encodedCLOSE script))
        = listener_open server)
  /\ (forall rd write_ok,
        it_flow (handle_read server encodedOK encodedCLOSE rd write_ok)
        <> Continue ->
        exists data funcCall,
          rd = ReadBytes data
          /\ Unmarshal data = Some funcCall
          /\ (MacAddress funcCall <> server_mac server
              \/ (MsgType funcCall = IPC_MSG_TYPE_CLOSE_CONN
                  /\ write_ok = true))).
Proof.
  split; [reflexivity|]. split; [|split; [|split]]; cycle 3.
  { intros rd write_ok Hflow. destruct rd as [|data]; [contradiction|].
    destruct (Unmarshal data) as [funcCall|] eqn:Hun.
    - exists data, funcCall. split; [reflexivity|]. split; [exact Hun|].
      rewrite (handle_read_decoded _ _ _ _ _ _ Hun) in Hflow.
      destruct (Z.eqb_spec (MacAddress funcCall) (server_mac server));
        [|left; assumption].
      cbn [negb] in Hflow.
      destruct (Z.eqb_spec (MsgType funcCall) IPC_MSG_TYPE_CLOSE_CONN);
        [|contradiction].
      right. split; [assumption|]. destruct write_ok; [reflexivity|].
      contradiction.
    - unfold handle_read in Hflow. rewrite Hun in Hflow. contradiction. }
  - intros data funcCall Hun Hmac it. subst it.
    rewrite (handle_read_decoded _ _ _ _ _ _ Hun), Hmac, Z.eqb_refl.
    cbn [negb]. destruct (MsgType funcCall =? _); cbn; auto.
  - intros script Hall run. subst run.
    rewrite (handle_conn_failing_reads _ _ _ _ Hall). cbn.
    rewrite length_map. auto.
  - intros script. apply handle_conn_keeps_listener.
Qed.

(** C4. For a message the goroutine decoded.  An identity other than the
    server's: no reply is written, nothing is queued, the goroutine ends
    and the connection is closed.  The server's identity and type CLOSE:
    the CLOSE reply is written, nothing is queued, and once that write
    succeeds the goroutine ends.  The server's identity and any other
    type: the message is appended to the queue once and the OK reply is
    written.  A client of the server's identity calling OPEN_FILE with
    "foo.txt" gets exactly that record queued and observes success; under
    another identity nothing is queued, the goroutine leaves without a
    reply and the client observes failure. *)
Theorem reader_handles_message (server : IpcServer)
    (encodedOK encodedCLOSE : json) (data : payload)
    (funcCall : IpcFuncCall) (write_ok : bool)
    (rest : list (read_result * bool))
    (Hdecoded : Unmarshal data = Some funcCall) :
  let it :=
    handle_read server encodedOK encodedCLOSE (ReadBytes data) write_ok in
  let run :=
    handle_conn server encodedOK encodedCLOSE
      ((ReadBytes data, write_ok) :: rest) in
  (MacAddress funcCall <> server_mac server ->
   it_written it = [] /\ it_server it = server /\ it_flow it = Break
   /\ run_closed run = true /\ run_written run = []
   /\ run_server run = server)
  /\ (MacAddress funcCall = server_mac server ->
      MsgType funcCall = IPC_MSG_TYPE_CLOSE_CONN ->
      it_written it = [encodedCLOSE] /\ it_server it = server
      /\ (write_ok = true ->
          it_flow it = Return /\ run_closed run = true
          /\ run_written run = [encodedCLOSE]))
  /\ (MacAddress funcCall = server_mac server ->
      MsgType funcCall <> IPC_MSG_TYPE_CLOSE_CONN ->
      calls (it_server it) = calls server ++ [funcCall]
      /\ callsAvailable (it_server it) = true
      /\ it_written it = [encodedOK]
      /\ it_flow it = Continue)
  /\ (forall client,
        in_uint64 (server_mac server) = true ->
        client_mac client = server_mac server ->
        exists it' res,
          call_against server client IPC_MSG_TYPE_OPEN_FILE
            (Some [VString "foo.txt"]) = Some (it', res)
          /\ calls (it_server it')
             = calls server
               ++ [{| MsgType := IPC_MSG_TYPE_OPEN_FILE;
                      MacAddress := server_mac server;
                      Args := Some [VString "foo.txt"] |}]
          /\ call_ok res = true)
  /\ (forall client,
        in_uint64 (server_mac server) = true ->
        in_uint64 (client_mac client) = true ->
        client_mac client <> server_mac server ->
        exists it' res,
          call_against server client IPC_MSG_TYPE_OPEN_FILE
            (Some [VString "foo.txt"]) = Some (it', res)
          /\ calls (it_server it') = calls server
          /\ it_written it' = []
          /\ it_flow it' = Break
          /\ call_ok res = false).
Proof.
  intros it run. subst it run. cbn [handle_conn].
  rewrite (handle_read_decoded _ _ _ _ _ _ Hdecoded).
  split; [|split; [|split; [|split]]].
  - intros Hmac. apply Z.eqb_neq in Hmac. rewrite Hmac. cbn. auto 10.
  - intros Hmac Hclose. rewrite Hmac, Hclose, !Z.eqb_refl. cbn [negb].
    cbn [it_written it_server it_flow].
    split; [reflexivity|]. split; [reflexivity|].
    intros ->. cbn. auto.
  - intros Hmac Hclose. apply Z.eqb_neq in Hclose.
    rewrite Hmac, Z.eqb_refl, Hclose. cbn. auto.
  - intros client Hsrv Hmac.
    destruct (call_against_same_identity server client
                IPC_MSG_TYPE_OPEN_FILE (Some [VString "foo.txt"]) Hsrv Hmac
                eq_refl ltac:(discriminate) eq_refl)
      as (it' & res & Hcall & Hserver & _ & Hok & _).
    exists it', res. rewrite Hserver. auto.
  - intros client Hsrv Hcli Hmac.
    destruct (call_against_other_identity server client
                IPC_MSG_TYPE_OPEN_FILE (Some [VString "foo.txt"]) Hsrv Hcli
                Hmac eq_refl eq_refl)
      as (it' & res & Hcall & Hserver & Hwritten & Hflow & Hok).
    exists it', res. rewrite Hserver. auto.
Qed.

Section DispatchFacts.

Variable int_of_float64 : float64 -> Z.

Lemma dispatch_panicked (call : IpcFuncCall) :
  panicked (dispatch int_of_float64 call) = negb (args_fit call).
Proof.
  unfold dispatch, args_fit.
  destruct (MsgType call =? IPC_MSG_TYPE_OPEN_FILE).
  { destruct (Args call) as [[|[] l]|]; reflexivity. }
  destruct (MsgType call =? IPC_MSG_TYPE_GOTO_LINE).
  { destruct (Args call) as [[|[] l]|]; reflexivity. }
  destruct (MsgType call =? IPC_MSG_TYPE_GOTO_COLUMN).
  { destruct (Args call) as [[|[] l]|]; reflexivity. }
  reflexivity.
Qed.

Lemma dispatch_all_panicked (queue : list IpcFuncCall) :
  panicked (dispatch_all int_of_float64 queue)
  = negb (forallb args_fit queue).
Proof.
  induction queue as [|call rest IH]; [reflexivity|].
  cbn [dispatch_all forallb].
  pose proof (dispatch_panicked call) as Hcall.
  destruct (dispatch int_of_float64 call) as [p|e]; cbn [bind panicked] in *.
  - destruct (args_fit call); [discriminate|]. reflexivity.
  - destruct (args_fit call); [|discriminate]. cbn [andb].
    destruct (dispatch_all int_of_float64 rest); cbn [bind panicked] in *;
      exact IH.
Qed.

(** C10. [update] panics exactly when calls are flagged available and
    some queued OPEN_FILE, GOTO_LINE or GOTO_COLUMN record has no first
    argument or one of another dynamic type than the asserted one; so it
    is panic-free only when every such record has a first argument of the
    asserted type.  The goroutine queues every message of the server's
    identity that is not CLOSE with its arguments unexamined; an OPEN_FILE
    call without arguments is queued, acknowledged with OK, and makes the
    next [update] panic. *)
Theorem update_panics_on_unchecked_args (server : IpcServer) :
  panicked (update int_of_float64 server)
  = callsAvailable server && negb (forallb args_fit (calls server))
  /\ (forall encodedOK encodedCLOSE data funcCall write_ok,
        Unmarshal data = Some funcCall ->
        MacAddress funcCall = server_mac server ->
        MsgType funcCall <> IPC_MSG_TYPE_CLOSE_CONN ->
        it_server
          (handle_read server encodedOK encodedCLOSE (ReadBytes data) write_ok)
        = appendNewCall server funcCall)
  /\ (forall client,
        in_uint64 (server_mac server) = true ->
        client_mac client = server_mac server ->
        exists it res,
          call_against server client IPC_MSG_TYPE_OPEN_FILE None
          = Some (it, res)
          /\ call_ok res = true
          /\ panicked (update int_of_float64 (it_server it)) = true).
Proof.
  assert (Hupdate : forall s,
             panicked (update int_of_float64 s)
             = callsAvailable s && negb (forallb args_fit (calls s))).
  { intros s. unfold update. destruct (callsAvailable s); [|reflexivity].
    rewrite <- dispatch_all_panicked.
    destruct (dispatch_all int_of_float64 (calls s)); reflexivity. }
  split; [apply Hupdate|]. split.
  - intros encodedOK encodedCLOSE data funcCall write_ok Hun Hmac Hclose.
    rewrite (handle_read_decoded _ _ _ _ _ _ Hun), Hmac, Z.eqb_refl.
    apply Z.eqb_neq in Hclose. rewrite Hclose. reflexivity.
  - intros client Hsrv Hmac.
    destruct (call_against_same_identity server client
                IPC_MSG_TYPE_OPEN_FILE None Hsrv Hmac eq_refl
                ltac:(discriminate) eq_refl)
      as (it & res & Hcall & Hserver & _ & Hok & _).
    exists it, res. split; [exact Hcall|]. split; [exact Hok|].
    rewrite Hupdate, Hserver. cbn [appendNewCall callsAvailable calls andb].
    rewrite forallb_app. cbn. rewrite andb_false_r. reflexivity.
Qed.

End DispatchFacts.

End ServerFacts.

(** C3, a witness: two failing reads in a row. *)
Lemma transport_failure_is_logged_witness :
  let script := [(Ipc.ReadError, true); (Ipc.ReadError, true)] in
  let run :=
    Ipc.handle_conn Sample.server Sample.encodedOK Sample.encodedCLOSE script
  in
  Forall (fun step => fst step = Ipc.ReadError) script
  /\ Ipc.run_closed run = false
  /\ Ipc.run_server run = Sample.server
  /\ length (Ipc.run_logs run) = length script.
Proof.
  cbv zeta.
  assert (H : Forall (fun step : Ipc.read_result * bool =>
                        fst step = Ipc.ReadError)
                [(Ipc.ReadError, true); (Ipc.ReadError, true)])
    by (repeat constructor).
  split; [exact H|].
  exact (proj1 (proj2 (proj2
           (transport_failure_is_logged Sample.server Sample.encodedOK
              Sample.encodedCLOSE))) _ H).
Defined.

(** C3, where the claim as worded fails: a read fails, then the write of
    the CLOSE reply fails, then a read fails again; after each the
    goroutine is still in its loop and the connection is still open. *)
Lemma failed_read_and_write_keep_connection :
  let close_request :=
    Json.Text (Sample.message Ipc.IPC_MSG_TYPE_CLOSE_CONN 7 Json.JNull) in
  let run :=
    Ipc.handle_conn Sample.server Sample.encodedOK Sample.encodedCLOSE
      [(Ipc.ReadError, true); (Ipc.ReadBytes close_request, false);
       (Ipc.ReadError, true)] in
  Ipc.run_closed run = false
  /\ Ipc.run_logs run
     = [(Log.WARN, "Failed to read client data:");
        (Log.TRACE, "Client");
        (Log.WARN, "Failed to send response to client.");
        (Log.WARN, "Failed to read client data:")].
Proof. split; reflexivity. Qed.

(** C4, a witness: an OPEN_FILE message under identity 8 read by the
    server of identity 7. *)
Lemma reader_handles_message_witness :
  let data :=
    Json.Text
      (Sample.message Ipc.IPC_MSG_TYPE_OPEN_FILE 8
         (Json.JArray [Json.JString "foo.txt"])) in
  let funcCall :=
    {| Ipc.MsgType := Ipc.IPC_MSG_TYPE_OPEN_FILE; Ipc.MacAddress := 8;
       Ipc.Args := Some [Go.VString "foo.txt"] |} in
  let run :=
    Ipc.handle_conn Sample.server Sample.encodedOK Sample.encodedCLOSE
      [(Ipc.ReadBytes data, true)] in
  Ipc.Unmarshal data = Some funcCall
  /\ Ipc.MacAddress funcCall <> Ipc.server_mac Sample.server
  /\ Ipc.run_closed run = true
  /\ Ipc.run_written run = []
  /\ Ipc.run_server run = Sample.server.
Proof.
  cbv zeta. split; [reflexivity|]. split; [discriminate|].
  pose proof (reader_handles_message Sample.server Sample.encodedOK
                Sample.encodedCLOSE
                (Json.Text
                   (Sample.message Ipc.IPC_MSG_TYPE_OPEN_FILE 8
                      (Json.JArray [Json.JString "foo.txt"])))
                {| Ipc.MsgType := Ipc.IPC_MSG_TYPE_OPEN_FILE;
                   Ipc.MacAddress := 8;
                   Ipc.Args := Some [Go.VString "foo.txt"] |}
                true [] eq_refl) as H.
  cbv zeta in H. destruct H as (H & _).
  destruct (H ltac:(discriminate)) as (_ & _ & _ & Hclosed & Hwritten & Hsrv).
  auto.
Defined.

(** C10, a witness: the sample server and a client on its machine. *)
Lemma update_panics_on_unchecked_args_witness :
  Go.in_uint64 (Ipc.server_mac Sample.server) = true
  /\ Ipc.client_mac Sample.same_machine = Ipc.server_mac Sample.server
  /\ exists it res,
       Ipc.call_against Sample.server Sample.same_machine
         Ipc.IPC_MSG_TYPE_OPEN_FILE None = Some (it, res)
       /\ Ipc.call_ok res = true
       /\ Go.panicked (Ipc.update Go.truncate_float64 (Ipc.it_server it))
          = true.
Proof.
  split; [reflexivity|]. split; [reflexivity|].
  exact (proj2 (proj2
           (update_panics_on_unchecked_args Go.truncate_float64 Sample.server))
           Sample.same_machine eq_refl eq_refl).
Defined.

(* ===================================================================== *)
(** * Further theorems: the queue between the goroutines and the tick *)
(* ===================================================================== *)

Section QueueFacts.
Import Go Json Log Ipc IpcMore.

Lemma handle_read_appends (server : IpcServer) (encodedOK encodedCLOSE : json)
    (rd : read_result) (write_ok : bool) :
  let it := handle_read server encodedOK encodedCLOSE rd write_ok in
  server_mac (it_server it) = server_mac server
  /\ (length (it_written it) <= 1)%nat
  /\ (it_server it = server
      \/ exists call,
           admitted server call
           /\ it_server it = appendNewCall server call).
Proof.
  cbv zeta. unfold handle_read. destruct rd as [|data]; [cbn; auto|].
  destruct (Unmarshal data) as [funcCall|]; [|cbn; auto].
  destruct (Z.eqb_spec (MacAddress funcCall) (server_mac server)) as [Hmac|];
    cbn [negb]; [|cbn; auto].
  destruct (Z.eqb_spec (MsgType funcCall) IPC_MSG_TYPE_CLOSE_CONN) as [|Hty].
  - destruct write_ok; cbn; auto.
  - cbn. split; [reflexivity|]. split; [lia|]. right. exists funcCall.
    split; [split; assumption | reflexivity].
Qed.

(** X1. Over any run of reads a connection goroutine only appends to the
    queue; every call it appends carries the server's identity and is no
    CLOSE; it appends at most one call and writes at most one reply per
    read; it leaves the server's identity alone. *)
Theorem handle_conn_only_appends_admitted (encodedOK encodedCLOSE : json)
    (script : list (read_result * bool)) (server : IpcServer) :
  let run := handle_conn server encodedOK encodedCLOSE script in
  exists added,
    calls (run_server run) = calls server ++ added
    /\ Forall (admitted server) added
    /\ (length added <= length script)%nat
    /\ (length (run_written run) <= length script)%nat
    /\ server_mac (run_server run) = server_mac server.
Proof.
  cbv zeta. revert server.
  induction script as [|[rd w] rest IH]; intros server.
  - exists []. cbn. rewrite app_nil_r. auto.
  - cbn [handle_conn].
    destruct (handle_read_appends server encodedOK encodedCLOSE rd w)
      as (Hmac & Hlen & Hstep).
    cbv zeta in Hmac, Hlen, Hstep.
    set (it := handle_read server encodedOK encodedCLOSE rd w) in *.
    assert (Hone : exists added1,
               calls (it_server it) = calls server ++ added1
               /\ Forall (admitted server) added1
               /\ (length added1 <= 1)%nat).
    { destruct Hstep as [-> | (call & Hadm & ->)].
      - exists []. rewrite app_nil_r. auto.
      - exists [call]. cbn. auto. }
    destruct Hone as (added1 & Hcalls1 & Hadm1 & Hlen1).
    destruct (it_flow it).
    + destruct (IH (it_server it)) as (added2 & Hcalls2 & Hadm2 & Hlen2
                                       & Hw2 & Hmac2).
      exists (added1 ++ added2). cbn [run_server run_written].
      rewrite Hcalls2, Hcalls1, <- app_assoc.
      split; [reflexivity|]. split.
      * apply Forall_app. split; [exact Hadm1|].
        eapply Forall_impl; [exact Hadm2|].
        intros c [? ?]. split; [congruence | assumption].
      * rewrite !length_app. cbn [length]. split; [lia|].
        split; [lia | congruence].
    + exists added1. cbn [run_server run_written length].
      repeat split; try assumption; lia.
    + exists added1. cbn [run_server run_written length].
      repeat split; try assumption; lia.
Qed.

Lemma handle_read_keeps_flagged (server : IpcServer)
    (encodedOK encodedCLOSE : json) (rd : read_result) (write_ok : bool) :
  flagged server ->
  flagged (it_server (handle_read server encodedOK encodedCLOSE rd write_ok)).
Proof.
  intros H.
  destruct (handle_read_appends server encodedOK encodedCLOSE rd write_ok)
    as (_ & _ & [-> | (call & _ & ->)]); [exact H|].
  intros _. reflexivity.
Qed.

Lemma update_drains (int_of_float64 : float64 -> Z) (server server' : IpcServer)
    (effects : list effect) :
  update int_of_float64 server = Returns (server', effects) ->
  (callsAvailable server = true ->
   calls server' = [] /\ callsAvailable server' = false)
  /\ (callsAvailable server = false -> server' = server /\ effects = [])
  /\ listener_open server' = listener_open server
  /\ server_mac server' = server_mac server.
Proof.
  unfold update. destruct (callsAvailable server).
  - destruct (dispatch_all int_of_float64 (calls server)); cbn [bind];
      [discriminate|].
    intros [= <- <-]. cbn. repeat split; discriminate.
  - intros [= <- <-]. repeat split; discriminate.
Qed.

(** X2. A queue that is non-empty only when calls are flagged available
    stays so through every run of a connection goroutine and through
    every [update] that returns; after such an [update] no call is left
    behind unflagged. *)
Theorem flagged_is_kept (int_of_float64 : float64 -> Z) (server : IpcServer)
    (encodedOK encodedCLOSE : json) (script : list (read_result * bool))
    (Hflagged : flagged server) :
  flagged (run_server (handle_conn server encodedOK encodedCLOSE script))
  /\ (forall server' effects,
        update int_of_float64 server = Returns (server', effects) ->
        flagged server' /\ calls server' = []).
Proof.
  split.
  - revert server Hflagged.
    induction script as [|[rd w] rest IH]; intros server Hflagged;
      [exact Hflagged|].
    cbn [handle_conn].
    pose proof (handle_read_keeps_flagged server encodedOK encodedCLOSE rd w
                  Hflagged) as Hstep.
    destruct (it_flow _); cbn [run_server]; [apply IH|..]; exact Hstep.
  - intros server' effects Hupdate.
    destruct (update_drains _ _ _ _ Hupdate) as (Hon & Hoff & _).
    destruct (callsAvailable server) eqn:Hflag.
    + destruct (Hon eq_refl) as [Hcalls _]. split; [|exact Hcalls].
      intros Hne. contradiction.
    + destruct (Hoff eq_refl) as [-> _]. split; [exact Hflagged|].
      destruct (calls server) eqn:Hcalls; [reflexivity|].
      unfold flagged in Hflagged. rewrite Hcalls in Hflagged.
      specialize (Hflagged ltac:(discriminate)). congruence.
Qed.

(** X3. An [update] that returns leaves an empty queue with the flag
    cleared, does not touch the listener or the identity, raises the
    window last whenever calls were flagged, and makes the next [update]
    do nothing at all. *)
Theorem update_drains_once (int_of_float64 : float64 -> Z)
    (server server' : IpcServer) (effects : list effect)
    (Hupdate : update int_of_float64 server = Returns (server', effects)) :
  listener_open server' = listener_open server
  /\ server_mac server' = server_mac server
  /\ (callsAvailable server = true ->
      calls server' = [] /\ callsAvailable server' = false
      /\ exists before, effects = before ++ [RaiseWindow])
  /\ (callsAvailable server = false -> server' = server /\ effects = [])
  /\ (flagged server -> update int_of_float64 server' = Returns (server', [])).
Proof.
  destruct (update_drains _ _ _ _ Hupdate) as (Hon & Hoff & Hl & Hm).
  split; [exact Hl|]. split; [exact Hm|]. split; [|split; [exact Hoff|]].
  - intros Hflag. destruct (Hon Hflag) as [Hc Hf]. split; [exact Hc|].
    split; [exact Hf|].
    unfold update in Hupdate. rewrite Hflag in Hupdate.
    destruct (dispatch_all int_of_float64 (calls server)) as [|es];
      cbn [bind] in Hupdate; [discriminate|].
    injection Hupdate as _ <-. exists es. reflexivity.
  - intros Hflagged. destruct (callsAvailable server) eqn:Hflag.
    + destruct (Hon eq_refl) as [_ Hf]. unfold update. rewrite Hf.
      reflexivity.
    + destruct (Hoff eq_refl) as [-> _]. unfold update. rewrite Hflag.
      reflexivity.
Qed.

Lemma dispatch_fit (int_of_float64 : float64 -> Z) (call : IpcFuncCall) :
  args_fit call = true ->
  dispatch int_of_float64 call = Returns [action int_of_float64 call].
Proof.
  unfold args_fit, dispatch, action.
  destruct (Z.eqb_spec (MsgType call) IPC_MSG_TYPE_OPEN_FILE) as [->|H2].
  { destruct (Args call) as [[|[] l]|]; try discriminate. reflexivity. }
  destruct (Z.eqb_spec (MsgType call) IPC_MSG_TYPE_GOTO_LINE) as [->|H3].
  { destruct (Args call) as [[|[] l]|]; try discriminate. reflexivity. }
  destruct (Z.eqb_spec (MsgType call) IPC_MSG_TYPE_GOTO_COLUMN) as [->|H4].
  { destruct (Args call) as [[|[] l]|]; try discriminate. reflexivity. }
  intros _. unfold IPC_MSG_TYPE_OPEN_FILE, IPC_MSG_TYPE_GOTO_LINE,
    IPC_MSG_TYPE_GOTO_COLUMN in *.
  destruct (MsgType call) as [|[[[]|[]|]|[[]|[]|]|]|]; try reflexivity;
    congruence.
Qed.

Lemma dispatch_all_fit (int_of_float64 : float64 -> Z)
    (queue : list IpcFuncCall) :
  forallb args_fit queue = true ->
  dispatch_all int_of_float64 queue
  = Returns (map (action int_of_float64) queue).
Proof.
  induction queue as [|c q IH]; [reflexivity|].
  cbn [forallb]. intros H. apply andb_prop in H as [Hc Hq].
  cbn [dispatch_all]. rewrite (dispatch_fit _ _ Hc), (IH Hq). reflexivity.
Qed.

(** X4. Calls are dispatched in the order they were queued, one action
    each: when the arguments of every queued call fit, [update] returns
    the actions of the calls in queue order followed by the raising of
    the window; and when they fit only up to some call, [update] panics
    however many well-formed calls follow it. *)
Theorem update_dispatches_in_order (int_of_float64 : float64 -> Z)
    (server : IpcServer) (good rest : list IpcFuncCall) (bad : IpcFuncCall) :
  (callsAvailable server = true ->
   forallb args_fit (calls server) = true ->
   update int_of_float64 server
   = Returns ({| listener_open := listener_open server;
                 server_mac := server_mac server;
                 callsAvailable := false; calls := [] |},
              map (action int_of_float64) (calls server) ++ [RaiseWindow]))
  /\ (callsAvailable server = true ->
      forallb args_fit good = true ->
      args_fit bad = false ->
      calls server = good ++ bad :: rest ->
      exists p,
        update int_of_float64 server = Panics p
        /\ dispatch int_of_float64 bad = Panics p).
Proof.
  split.
  - intros Hflag Hfit. unfold update.
    rewrite Hflag, (dispatch_all_fit _ _ Hfit). reflexivity.
  - intros Hflag Hfit Hbad Hcalls.
    pose proof (dispatch_panicked int_of_float64 bad) as Hp.
    rewrite Hbad in Hp. cbn in Hp.
    destruct (dispatch int_of_float64 bad) as [p|] eqn:Hd; [|discriminate].
    exists p. split; [|reflexivity].
    unfold update. rewrite Hflag, Hcalls. clear Hcalls.
    induction good as [|c good IH]; cbn [app dispatch_all].
    + rewrite Hd. reflexivity.
    + cbn [forallb] in Hfit. apply andb_prop in Hfit as [Hc Hq].
      rewrite (dispatch_fit _ _ Hc). cbn [bind].
      specialize (IH Hq).
      destruct (dispatch_all int_of_float64 (good ++ bad :: rest));
        cbn [bind] in *; [exact IH | discriminate].
Qed.

(** X5. A client on the server's machine asks to open a path of valid
    UTF-8 while the queue is empty: the client observes success, and the
    next [update] opens exactly that path, raises the window and leaves
    the queue empty. *)
Theorem open_file_reaches_the_editor (int_of_float64 : float64 -> Z)
    (server : IpcServer) (client : IpcClient) (path : string)
    (Hserver : in_uint64 (server_mac server) = true)
    (Hsame : client_mac client = server_mac server)
    (Hempty : calls server = [])
    (Hpath : valid_utf8 path = true) :
  exists it res,
    call_against server client IPC_MSG_TYPE_OPEN_FILE (Some [VString path])
    = Some (it, res)
    /\ call_ok res = true
    /\ update int_of_float64 (it_server it)
       = Returns ({| listener_open := listener_open server;
                     server_mac := server_mac server;
                     callsAvailable := false; calls := [] |},
                  [OpenFile path; RaiseWindow]).
Proof.
  destruct (call_against_same_identity server client IPC_MSG_TYPE_OPEN_FILE
              (Some [VString path]) Hserver Hsame eq_refl
              ltac:(discriminate))
    as (it & res & Hcall & Hit & _ & Hok & _).
  { cbn. rewrite Hpath. reflexivity. }
  exists it, res. split; [exact Hcall|]. split; [exact Hok|].
  rewrite Hit. unfold update, appendNewCall.
  cbn [callsAvailable calls listener_open server_mac]. rewrite Hempty.
  reflexivity.
Qed.

(** X6. A CLOSE call, which is what [client.Close] sends.  From a client
    of the server's identity: the goroutine writes the CLOSE reply and
    returns, nothing is queued, and the client closes its side and
    reports success.  From another identity: the goroutine leaves without
    a reply, and the client reports failure and does not close. *)
Theorem close_call_ends_both_sides (server : IpcServer) (client : IpcClient)
    (Hserver : in_uint64 (server_mac server) = true)
    (Hclient : in_uint64 (client_mac client) = true) :
  exists it res,
    call_against server client IPC_MSG_TYPE_CLOSE_CONN None = Some (it, res)
    /\ it_server it = server
    /\ (client_mac client = server_mac server ->
        it_flow it = Return
        /\ Some (it_written it)
           = option_map (fun j => [j])
               (Marshal {| MsgType := IPC_MSG_TYPE_CLOSE_CONN;
                           MacAddress := server_mac server; Args := None |})
        /\ call_ok res = true /\ call_closed res = true)
    /\ (client_mac client <> server_mac server ->
        it_flow it = Break /\ it_written it = []
        /\ call_ok res = false /\ call_closed res = false).
Proof.
  unfold call_against, encoded_replies.
  rewrite !Marshal_without_args.
  rewrite (handle_read_decoded _ _ _ _ _ _
             (Unmarshal_without_args IPC_MSG_TYPE_CLOSE_CONN _ eq_refl
                Hclient)).
  cbn [MacAddress MsgType]. rewrite Z.eqb_refl.
  destruct (Z.eqb_spec (client_mac client) (server_mac server)) as [Heq|Hne];
    cbn [negb it_written].
  - eexists _, _. split; [reflexivity|]. cbn [it_server it_flow it_written].
    split; [reflexivity|]. split; [|intros; contradiction].
    intros _. split; [reflexivity|]. split; [reflexivity|].
    unfold Call. rewrite Marshal_without_args. cbn [negb].
    rewrite (Unmarshal_without_args IPC_MSG_TYPE_CLOSE_CONN _ eq_refl Hserver).
    unfold check_response. cbn [MacAddress MsgType].
    rewrite <- Heq, Z.eqb_refl. split; reflexivity.
  - eexists _, _. split; [reflexivity|]. cbn [it_server it_flow it_written].
    split; [reflexivity|]. split; [intros; contradiction|].
    intros _. split; [reflexivity|]. split; [reflexivity|].
    unfold Call. rewrite Marshal_without_args. split; reflexivity.
Qed.

(** X8. [Call] reports success only after its write succeeded and it
    read a reply that decodes, carries the client's own identity and is
    of type OK or CLOSE; it closes the connection only when it reports
    success; it hands at most one message to the connection, and none
    when the request cannot be encoded. *)
Theorem Call_success_needs_own_identity (client : IpcClient)
    (msgType : IpcMessageType) (args : slice value) (write_ok : bool)
    (rd : read_result) :
  let r := Call client msgType args write_ok rd in
  (call_ok r = true ->
   write_ok = true
   /\ exists data reply,
        rd = ReadBytes data
        /\ Unmarshal data = Some reply
        /\ MacAddress reply = client_mac client
        /\ (MsgType reply = IPC_MSG_TYPE_OK
            \/ MsgType reply = IPC_MSG_TYPE_CLOSE_CONN))
  /\ (call_closed r = true -> call_ok r = true)
  /\ (length (call_written r) <= 1)%nat
  /\ (Marshal {| MsgType := msgType; MacAddress := client_mac client;
                 Args := args |} = None ->
      call_written r = []).
Proof.
  cbv zeta. unfold Call.
  destruct (Marshal _) as [request|]; [|cbn; repeat split; try discriminate; lia].
  destruct write_ok; cbn [negb];
    [|cbn; repeat split; try discriminate; lia].
  destruct rd as [|data]; [cbn; repeat split; try discriminate; lia|].
  destruct (Unmarshal data) as [reply|] eqn:Hun;
    [|cbn; repeat split; try discriminate; lia].
  unfold check_response.
  destruct (Z.eqb_spec (MacAddress reply) (client_mac client)) as [Hmac|];
    cbn [negb]; [|cbn; repeat split; try discriminate; lia].
  destruct (Z.eqb_spec (MsgType reply) IPC_MSG_TYPE_CLOSE_CONN) as [Hc|].
  { cbn. repeat split; try discriminate; try lia.
    exists data, reply. auto. }
  destruct (Z.eqb_spec (MsgType reply) IPC_MSG_TYPE_OK) as [Ho|]; cbn [negb].
  - cbn. repeat split; try discriminate; try lia.
    exists data, reply. auto.
  - cbn. repeat split; try discriminate; lia.
Qed.

End QueueFacts.

Section IdentityFacts.
Import Go Ipc MachineIdentity.

Lemma uint64_of_byte_inj (b b' : Byte.byte) :
  uint64_of_byte b = uint64_of_byte b' -> b = b'.
Proof.
  unfold uint64_of_byte. intros H. apply N2Z.inj in H.
  pose proof (Byte.of_to_N b) as Hb. pose proof (Byte.of_to_N b') as Hb'.
  rewrite H in Hb. congruence.
Qed.

Lemma big_endian_step_inj (l l' : list Byte.byte) :
  forall acc acc',
    0 <= acc -> 0 <= acc' ->
    length l = length l' ->
    fold_left (fun a b => a * 256 + uint64_of_byte b) l acc
    = fold_left (fun a b => a * 256 + uint64_of_byte b) l' acc' ->
    acc = acc' /\ l = l'.
Proof.
  revert l'. induction l as [|b l IH]; intros [|b' l'] acc acc' Ha Ha' Hlen H;
    try discriminate.
  - cbn in H. auto.
  - cbn [fold_left] in H. injection Hlen as Hlen.
    pose proof (uint64_of_byte_range b). pose proof (uint64_of_byte_range b').
    destruct (IH l' (acc * 256 + uint64_of_byte b)
                (acc' * 256 + uint64_of_byte b')) as [Hacc ->];
      [lia | lia | exact Hlen | exact H |].
    assert (acc = acc' /\ uint64_of_byte b = uint64_of_byte b') as [-> Hb]
      by lia.
    rewrite (uint64_of_byte_inj _ _ Hb). auto.
Qed.

Lemma big_endian_step_bound (l : list Byte.byte) :
  forall acc n,
    0 <= n -> 0 <= acc < 2 ^ (8 * n) ->
    0 <= fold_left (fun a b => a * 256 + uint64_of_byte b) l acc
      < 2 ^ (8 * (n + Z.of_nat (length l))).
Proof.
  induction l as [|b l IH]; intros acc n Hn Hacc.
  - cbn [fold_left length Z.of_nat]. rewrite Z.add_0_r. exact Hacc.
  - cbn [fold_left length]. pose proof (uint64_of_byte_range b).
    replace (n + Z.of_nat (S (length l)))
      with ((n + 1) + Z.of_nat (length l)) by lia.
    apply IH; [lia|].
    replace (8 * (n + 1)) with (8 * n + 8) by lia.
    rewrite Z.pow_add_r by lia. change (2 ^ 8) with 256. nia.
Qed.

(** X7. Two machines whose first qualifying interfaces have hardware
    addresses of one length, at most eight bytes, get the same identity
    only when the addresses are equal; and an address of [n] bytes, [n]
    at most eight, gives an identity below [2 ^ (8 * n)]. *)
Theorem identity_determines_address (l1 l2 : list Interface)
    (i1 i2 : Interface)
    (H1 : List.find qualifies l1 = Some i1)
    (H2 : List.find qualifies l2 = Some i2)
    (Hlen : length (HardwareAddr i1) = length (HardwareAddr i2))
    (Hshort : (length (HardwareAddr i1) <= 8)%nat) :
  (getMacAddress (Some l1) = getMacAddress (Some l2) ->
   HardwareAddr i1 = HardwareAddr i2)
  /\ 0 <= getMacAddress (Some l1)
       < 2 ^ (8 * Z.of_nat (length (HardwareAddr i1))).
Proof.
  cbn [getMacAddress].
  destruct (scan_interfaces_identity l1) as [-> _].
  destruct (scan_interfaces_identity l2) as [-> _].
  unfold identity. rewrite H1, H2.
  rewrite !firstn_all2 by lia. unfold big_endian. split.
  - intros H. apply (big_endian_step_inj _ _ 0 0); [lia | lia | exact Hlen | exact H].
  - apply (big_endian_step_bound _ 0 0); cbn; lia.
Qed.

End IdentityFacts.

(* ===================================================================== *)
(** * Further theorems: modifier keys *)
(* ===================================================================== *)

Section ModifierFacts.
Import Input.

Variable GetKeyName : Z -> Z -> string.

Lemma append_nil_l (t : string) : EmptyString +:+ t = t.
Proof. reflexivity. Qed.

Lemma append_cons (b : ascii) (s t : string) :
  String b s +:+ t = String b (s +:+ t).
Proof. reflexivity. Qed.

Lemma append_empty (s : string) : s +:+ EmptyString = s.
Proof.
  induction s as [|b s IH]; [reflexivity|]. rewrite append_cons, IH.
  reflexivity.
Qed.

Lemma length_append (s t : string) :
  String.length (s +:+ t) = (String.length s + String.length t)%nat.
Proof.
  induction s as [|b s IH]; [reflexivity|].
  rewrite append_cons. cbn [String.length]. rewrite IH. reflexivity.
Qed.

Lemma index_single_cons (c b : ascii) (s : string) :
  String.index 0 (String c EmptyString) (String b s)
  = if Ascii.eqb c b then Some 0%nat
    else option_map S (String.index 0 (String c EmptyString) s).
Proof.
  cbn [String.index String.prefix].
  destruct (ascii_dec c b) as [->|Hne].
  - rewrite Ascii.eqb_refl. destruct s; reflexivity.
  - apply Ascii.eqb_neq in Hne. rewrite Hne.
    destruct (String.index 0 (String c EmptyString) s); reflexivity.
Qed.

Lemma index_single_append (c : ascii) (s : string) :
  String.index 0 (String c EmptyString) s = None ->
  String.index 0 (String c EmptyString) (s +:+ String c EmptyString)
  = Some (String.length s).
Proof.
  induction s as [|b s IH]; intros H.
  - rewrite append_nil_l, index_single_cons, Ascii.eqb_refl. reflexivity.
  - rewrite index_single_cons in H. rewrite append_cons, index_single_cons.
    destruct (Ascii.eqb c b); [discriminate|].
    destruct (String.index 0 (String c EmptyString) s); [discriminate|].
    rewrite IH by reflexivity. reflexivity.
Qed.

Lemma index_single_present (c : ascii) (s : string) :
  String.index 0 (String c EmptyString) (s +:+ String c EmptyString) <> None.
Proof.
  induction s as [|b s IH].
  - rewrite append_nil_l, index_single_cons, Ascii.eqb_refl. discriminate.
  - rewrite append_cons, index_single_cons.
    destruct (Ascii.eqb c b); [discriminate|].
    destruct (String.index _ _ _); [discriminate | contradiction].
Qed.

Lemma substring_prefix (s t : string) :
  String.substring 0 (String.length s) (s +:+ t) = s.
Proof.
  induction s as [|b s IH]; [destruct t; reflexivity|].
  rewrite append_cons. cbn [String.length String.substring].
  rewrite IH. reflexivity.
Qed.

Lemma substring_nothing (s : string) (n : nat) :
  String.substring n 0 s = EmptyString.
Proof.
  revert n. induction s as [|b s IH]; intros [|n]; cbn; auto.
Qed.

(** A code just appended is what its removal takes away. *)
Lemma remove_appended (c : ascii) (s : string) :
  strings_absent s (String c EmptyString) = true ->
  strings_remove_first (s +:+ String c EmptyString) (String c EmptyString)
  = s.
Proof.
  unfold strings_absent, strings_remove_first. intros H.
  destruct (String.index 0 (String c EmptyString) s) eqn:Hi; [discriminate|].
  rewrite (index_single_append _ _ Hi), substring_prefix, length_append.
  cbn [String.length].
  replace (String.length s + 1 - (String.length s + 1))%nat with 0%nat by lia.
  rewrite substring_nothing. apply append_empty.
Qed.

(** The codes of the modifier table are single letters. *)
Lemma modifier_codes (key : Z) (code : string) :
  ModifierKeys !! key = Some code ->
  exists c, code = String c EmptyString.
Proof.
  intros H. apply elem_of_list_to_map_2 in H.
  repeat (apply elem_of_cons in H as [[= _ ->]|H]; [eexists; reflexivity|]).
  apply elem_of_nil in H. contradiction.
Qed.

Lemma set_modifiers_back (st : state) (m : string) :
  set_modifiers (set_modifiers st m) (lastMouseModifiers st) = st.
Proof. destruct st; reflexivity. Qed.

Lemma press_modifier (st : state) (key scancode mods : Z) (code : string) :
  ModifierKeys !! key = Some code ->
  KeyEventHandler GetKeyName st key scancode glfw.Press mods
  = if strings_absent (lastMouseModifiers st) code
    then (set_modifiers st (lastMouseModifiers st +:+ code), [])
    else (st, []).
Proof.
  intros H. unfold KeyEventHandler. rewrite H. reflexivity.
Qed.

Lemma release_modifier (st : state) (key scancode mods : Z) (code : string) :
  ModifierKeys !! key = Some code ->
  lastMouseModifiers st <> "" ->
  KeyEventHandler GetKeyName st key scancode glfw.Release mods
  = (set_modifiers st (strings_remove_first (lastMouseModifiers st) code), []).
Proof.
  intros H Hne. unfold KeyEventHandler. rewrite H.
  apply String.eqb_neq in Hne. rewrite Hne. reflexivity.
Qed.

Lemma appended_not_empty (s : string) (c : ascii) :
  s +:+ String c EmptyString <> "".
Proof. destruct s; discriminate. Qed.

(** X9. An event of a modifier key forwards nothing and leaves the
    bindings and the popup menu alone, whatever its action.  The press
    of a modifier key whose letter is not recorded appends the letter,
    and the release that follows restores the state. *)
Theorem modifier_press_release (st : state) (key scancode action mods : Z)
    (code : string) (Hkey : ModifierKeys !! key = Some code) :
  let any := KeyEventHandler GetKeyName st key scancode action mods in
  let pressed := KeyEventHandler GetKeyName st key scancode glfw.Press mods in
  snd any = []
  /\ zoomInKey (fst any) = zoomInKey st
  /\ zoomOutKey (fst any) = zoomOutKey st
  /\ toggleFullscreenKey (fst any) = toggleFullscreenKey st
  /\ popupMenuEnabled (fst any) = popupMenuEnabled st
  /\ popupMenuVisible (fst any) = popupMenuVisible st
  /\ (strings_absent (lastMouseModifiers st) code = true ->
      lastMouseModifiers (fst pressed) = lastMouseModifiers st +:+ code
      /\ KeyEventHandler GetKeyName (fst pressed) key scancode glfw.Release
           mods
         = (st, [])).
Proof.
  cbv zeta. split; [|split; [|split; [|split; [|split; [|split]]]]].
  1-6: unfold KeyEventHandler; rewrite Hkey;
    destruct (action =? glfw.Press);
    [destruct (strings_absent _ _); reflexivity|];
    destruct (_ && _); reflexivity.
  intros Habsent. rewrite (press_modifier _ _ _ _ _ Hkey), Habsent.
  cbn [fst]. split; [reflexivity|].
  destruct (modifier_codes _ _ Hkey) as [c ->].
  rewrite (release_modifier _ _ _ _ _ Hkey)
    by (cbn [set_modifiers lastMouseModifiers]; apply appended_not_empty).
  cbn [set_modifiers lastMouseModifiers zoomInKey zoomOutKey
         toggleFullscreenKey popupMenuEnabled popupMenuVisible].
  rewrite (remove_appended _ _ Habsent). destruct st; reflexivity.
Qed.

(** X10. The left and the right key of a modifier share one letter: with
    the letter not yet recorded, pressing one key and then the other
    records it once, and releasing either of the two removes it although
    the other key is still held. *)
Theorem modifier_keys_are_aliased (st : state) (key1 key2 scancode mods : Z)
    (code : string)
    (Hkey1 : ModifierKeys !! key1 = Some code)
    (Hkey2 : ModifierKeys !! key2 = Some code)
    (Habsent : strings_absent (lastMouseModifiers st) code = true) :
  let one :=
    fst (KeyEventHandler GetKeyName st key1 scancode glfw.Press mods) in
  let both :=
    fst (KeyEventHandler GetKeyName one key2 scancode glfw.Press mods) in
  both = one
  /\ lastMouseModifiers both = lastMouseModifiers st +:+ code
  /\ fst (KeyEventHandler GetKeyName both key1 scancode glfw.Release mods)
     = st
  /\ fst (KeyEventHandler GetKeyName both key2 scancode glfw.Release mods)
     = st.
Proof.
  cbv zeta.
  rewrite (press_modifier _ _ _ _ _ Hkey1), Habsent. cbn [fst].
  destruct (modifier_codes _ _ Hkey1) as [c ->].
  rewrite (press_modifier _ _ _ _ _ Hkey2).
  assert (Hpresent :
            strings_absent
              (lastMouseModifiers
                 (set_modifiers st
                    (lastMouseModifiers st +:+ String c EmptyString)))
              (String c EmptyString) = false).
  { cbn [set_modifiers lastMouseModifiers]. unfold strings_absent.
    pose proof (index_single_present c (lastMouseModifiers st)).
    destruct (String.index _ _ _); [reflexivity | contradiction]. }
  rewrite Hpresent. cbn [fst].
  split; [reflexivity|]. split; [reflexivity|].
  rewrite (release_modifier _ _ _ _ _ Hkey1), (release_modifier _ _ _ _ _ Hkey2)
    by (cbn [set_modifiers lastMouseModifiers]; apply appended_not_empty).
  cbn [fst set_modifiers lastMouseModifiers zoomInKey zoomOutKey
         toggleFullscreenKey popupMenuEnabled popupMenuVisible].
  rewrite (remove_appended _ _ Habsent). destruct st; split; reflexivity.
Qed.

End ModifierFacts.

(* ===================================================================== *)
(** * Further theorems: buttons, motion and scroll *)
(* ===================================================================== *)

Section PointerFacts.
Import Go Pointer.

Variable int_of_float64 : float64 -> Z.

Lemma int_div_none (a b : Z) : int_div a b = None <-> b = 0.
Proof.
  unfold int_div. destruct (Z.eqb_spec b 0); split; intros H;
    try reflexivity; try discriminate; try assumption; contradiction.
Qed.

Lemma cell_under_none (st : state) :
  cell_under st = None <-> cellHeight st = 0 \/ cellWidth st = 0.
Proof.
  unfold cell_under.
  destruct (int_div (snd (lastMousePos st)) (cellHeight st)) eqn:Hrow.
  - destruct (int_div (fst (lastMousePos st)) (cellWidth st)) eqn:Hcol.
    + split; [discriminate|]. intros [H|H].
      * apply int_div_none with (a := snd (lastMousePos st)) in H. congruence.
      * apply int_div_none with (a := fst (lastMousePos st)) in H. congruence.
    + split; [|reflexivity]. intros _. right.
      exact (proj1 (int_div_none _ _) Hcol).
  - split; [|reflexivity]. intros _. left.
    exact (proj1 (int_div_none _ _) Hrow).
Qed.

(** Within one cell of the origin, on either side, the quotient is 0. *)
Lemma int_div_near_origin (a b q : Z) :
  int_div a b = Some q -> Z.abs a < Z.abs b -> q = 0.
Proof.
  unfold int_div. destruct (Z.eqb_spec b 0) as [|Hb]; [discriminate|].
  intros [= <-] Hsmall.
  rewrite (proj2 (Z.quot_small_iff a b Hb) Hsmall). reflexivity.
Qed.

(** X11. A scroll reports one wheel event at the cell under the pointer,
    "down" exactly for a negative offset (minus infinity or a negative
    finite number) and "up" for everything else, both zeros and NaN
    included; a pointer less than one cell away from the origin, on
    either side of it, is reported in row and column 0; and the callback
    panics exactly when the cell height or width is zero. *)
Theorem scroll_reports_a_wheel (st : state) (xpos ypos : float64) :
  (ScrollEventHandler st xpos ypos = None
   <-> cellHeight st = 0 \/ cellWidth st = 0)
  /\ (forall effects,
        ScrollEventHandler st xpos ypos = Some effects ->
        exists row col,
          effects
          = [InputMouse "wheel"
               (match ypos with
                | S754_infinity true | S754_finite true _ _ => "down"
                | _ => "up"
                end)
               (Input.lastMouseModifiers (keys st)) 0 row col]
          /\ (Z.abs (snd (lastMousePos st)) < Z.abs (cellHeight st) ->
              row = 0)
          /\ (Z.abs (fst (lastMousePos st)) < Z.abs (cellWidth st) ->
              col = 0)).
Proof.
  unfold ScrollEventHandler. split.
  - rewrite <- cell_under_none. destruct (cell_under st) as [[row col]|];
      split; intros H; try reflexivity; discriminate.
  - intros effects H. unfold cell_under in H.
    destruct (int_div (snd (lastMousePos st)) (cellHeight st)) as [row|]
      eqn:Hrow; [|discriminate].
    destruct (int_div (fst (lastMousePos st)) (cellWidth st)) as [col|]
      eqn:Hcol; [|discriminate].
    injection H as <-. exists row, col. split.
    + f_equal. f_equal. destruct ypos as [[]|[]| |[] m e]; reflexivity.
    + split; intros Hsmall; eapply int_div_near_origin; eassumption.
Qed.

Lemma forward_button_result (st st1 : state) (code : string) (action : Z)
    (before effects : list effect) :
  forward_button st code action before = Some (st1, effects) ->
  lastMouseButton st1 = code
  /\ lastMouseAction st1 = action
  /\ keys st1 = keys st /\ lastMousePos st1 = lastMousePos st
  /\ cellWidth st1 = cellWidth st /\ cellHeight st1 = cellHeight st
  /\ exists row col,
       effects
       = before
         ++ [InputMouse code
               (if action =? glfw.Release then "release" else "press")
               (Input.lastMouseModifiers (keys st)) 0 row col].
Proof.
  unfold forward_button. destruct (cell_under st) as [[row col]|];
    [|discriminate].
  intros [= <- <-]. cbn. repeat split. eauto.
Qed.

(** X12. What a button event leaves behind decides what motion reports.
    A button event that reports to the backend records its button and
    action; one that does not (a click the popup menu took, a right press
    under an enabled menu, an unknown button) changes nothing.  The next
    motion then ends in a "drag" of the recorded button when the recorded
    action is a press, and reports no mouse input otherwise. *)
Theorem button_then_motion (st st1 : state) (button action mods : Z)
    (menu_handled : bool) (effects : list effect) (xpos ypos : float64)
    (Hbutton : ButtonEventHandler st button action mods menu_handled
               = Some (st1, effects)) :
  (forall code ac modifier grid row col,
     In (InputMouse code ac modifier grid row col) effects ->
     lastMouseButton st1 = code
     /\ lastMouseAction st1 = action
     /\ ac = (if action =? glfw.Release then "release" else "press"))
  /\ (no_mouse_input effects -> st1 = st)
  /\ (forall st2 effects2,
        MousePosEventHandler int_of_float64 st1 xpos ypos
        = Some (st2, effects2) ->
        lastMouseButton st2 = lastMouseButton st1
        /\ lastMouseAction st2 = lastMouseAction st1
        /\ if lastMouseAction st1 =? glfw.Press
           then exists before row col,
                  effects2
                  = before
                    ++ [InputMouse (lastMouseButton st1) "drag"
                          (Input.lastMouseModifiers (keys st1)) 0 row col]
           else no_mouse_input effects2).
Proof.
  assert (Hcases :
            (st1 = st /\ no_mouse_input effects)
            \/ exists code before,
                 no_mouse_input before
                 /\ forward_button st code action before
                    = Some (st1, effects)).
  { unfold ButtonEventHandler in Hbutton.
    assert (Hclick : forall b,
               no_mouse_input [PopupMouseClick b (lastMousePos st)]).
    { intros b ? ? ? ? ? ? [H|[]]. discriminate. }
    assert (Hnil : no_mouse_input []) by (intros ? ? ? ? ? ? []).
    destruct (button =? MouseButtonLeft).
    { destruct (_ && _).
      - destruct menu_handled.
        + injection Hbutton as <- <-. left. auto.
        + right. eauto.
      - right. eauto. }
    destruct (button =? MouseButtonRight).
    { destruct (_ && _).
      - injection Hbutton as <- <-. left. auto.
      - right. eauto. }
    destruct (button =? MouseButtonMiddle); [right; eauto|].
    injection Hbutton as <- <-. left. auto. }
  split; [|split].
  - intros code ac modifier grid row col Hin.
    destruct Hcases as [[_ Hno] | (code' & before & Hbefore & Hfw)].
    + exfalso. eapply Hno. exact Hin.
    + destruct (forward_button_result _ _ _ _ _ _ Hfw)
        as (Hb & Ha & _ & _ & _ & _ & row' & col' & ->).
      apply in_app_or in Hin as [Hin|[Hin|[]]].
      * exfalso. eapply Hbefore. exact Hin.
      * injection Hin as <- <- _ _ _ _. auto.
  - intros Hno. destruct Hcases as [[-> _] | (code' & before & _ & Hfw)];
      [reflexivity|].
    destruct (forward_button_result _ _ _ _ _ _ Hfw)
      as (_ & _ & _ & _ & _ & _ & row' & col' & ->).
    exfalso. eapply Hno. apply in_or_app. right. left. reflexivity.
  - intros st2 effects2. unfold MousePosEventHandler.
    assert (Hmoved : forall pos,
               no_mouse_input
                 (if Input.popupMenuEnabled (keys st1)
                  then [PopupMouseMove pos] else [])).
    { intros pos ? ? ? ? ? ?. destruct (Input.popupMenuEnabled _);
        [intros [H|[]]; discriminate | intros []]. }
    destruct (lastMouseAction st1 =? glfw.Press).
    + destruct (cell_under _) as [[row col]|]; [|discriminate].
      intros [= <- <-]. cbn [lastMouseButton lastMouseAction].
      split; [reflexivity|]. split; [reflexivity|]. eauto.
    + intros [= <- <-]. cbn [lastMouseButton lastMouseAction].
      split; [reflexivity|]. split; [reflexivity|]. apply Hmoved.
Qed.

(** X13. The pointer callbacks divide by the cell size only when they
    report a cell.  A button event panics exactly when it is not kept
    from the backend (by the popup menu, or as an unknown button) and a
    cell size is zero; a motion panics exactly when the recorded action
    is a press and a cell size is zero. *)
Theorem pointer_callbacks_panic_on_zero_cell (st : state)
    (button action mods : Z) (menu_handled : bool) (xpos ypos : float64) :
  let enabled := Input.popupMenuEnabled (keys st) in
  let kept :=
    ((button =? MouseButtonLeft) && (action =? glfw.Press) && enabled
     && menu_handled)
    || ((button =? MouseButtonRight) && (action =? glfw.Press) && enabled)
    || negb ((button =? MouseButtonLeft) || (button =? MouseButtonRight)
             || (button =? MouseButtonMiddle)) in
  (ButtonEventHandler st button action mods menu_handled = None
   <-> kept = false /\ (cellHeight st = 0 \/ cellWidth st = 0))
  /\ (MousePosEventHandler int_of_float64 st xpos ypos = None
      <-> lastMouseAction st = glfw.Press
          /\ (cellHeight st = 0 \/ cellWidth st = 0)).
Proof.
  cbv zeta. split.
  - assert (Hfw : forall code before,
               forward_button st code action before = None
               <-> cellHeight st = 0 \/ cellWidth st = 0).
    { intros code before. rewrite <- cell_under_none. unfold forward_button.
      destruct (cell_under st) as [[row col]|]; split; intros H;
        try reflexivity; discriminate. }
    unfold ButtonEventHandler.
    destruct (Z.eqb_spec button MouseButtonLeft) as [->|Hl];
      [change (MouseButtonLeft =? MouseButtonRight) with false;
       change (MouseButtonLeft =? MouseButtonMiddle) with false|];
      [|destruct (Z.eqb_spec button MouseButtonRight) as [->|Hr];
        [change (MouseButtonRight =? MouseButtonMiddle) with false|];
        [|destruct (Z.eqb_spec button MouseButtonMiddle) as [->|Hm]]];
      destruct (action =? glfw.Press);
      destruct (Input.popupMenuEnabled (keys st));
      destruct menu_handled;
      cbn [andb orb negb]; try rewrite Hfw;
      try (split; [discriminate | intros [? _]; discriminate]); tauto.
  - unfold MousePosEventHandler.
    destruct (Z.eqb_spec (lastMouseAction st) glfw.Press) as [Hp|Hp].
    + match goal with |- context [cell_under ?s] =>
        pose proof (cell_under_none s) as Hc end.
      cbn [cellHeight cellWidth] in Hc.
      destruct (cell_under _) as [[row col]|].
      * split; [discriminate|]. intros [_ H]. apply Hc in H. discriminate.
      * split; [|reflexivity]. intros _. split; [exact Hp|]. apply Hc.
        reflexivity.
    + split; [discriminate|]. intros [H _]. contradiction.
Qed.

End PointerFacts.

(* ===================================================================== *)
(** * Further theorems: the draw call *)
(* ===================================================================== *)

Section DrawFacts.
Import RendererGL RendererDraw.

(** X14. After an upload of fewer than [2 ^ 31] indices, and whatever
    vertex uploads follow it, [RGL_Render] draws exactly the uploaded
    number of indices as triangles; before any upload it draws none. *)
Theorem render_draws_the_uploaded_indices (st : state) (data : list Z)
    (err : Z) (later : list (list Vertex * Z))
    (Hfits : len data < 2 ^ 31) :
  RGL_Render
    (vertex_uploads (state_after (RGL_UpdateElementData st data err)) later)
  = DrawElements TRIANGLES (len data) UNSIGNED_INT
  /\ RGL_Render initial = DrawElements TRIANGLES 0 UNSIGNED_INT.
Proof.
  split; [|reflexivity]. unfold RGL_Render.
  rewrite vertex_uploads_keep_element_len, element_len_recorded.
  f_equal. unfold int32_of_int.
  assert (0 <= len data) by (unfold len; lia).
  rewrite Z.mod_small by lia. lia.
Qed.

End DrawFacts.

(* ===================================================================== *)
(** * Further theorems: character input *)
(* ===================================================================== *)

Section CharFacts.
Import Json Pointer.

Lemma all_in_block_holds (P : Z -> bool) (depth : nat) :
  forall start,
    all_in_block P depth start = true ->
    forall x,
      start * 2 ^ Z.of_nat depth <= x < (start + 1) * 2 ^ Z.of_nat depth ->
      P x = true.
Proof.
  induction depth as [|d IH]; intros start H x Hx.
  - cbn in Hx. assert (x = start) by lia. subst. exact H.
  - cbn [all_in_block] in H. apply andb_prop in H as [H0 H1].
    rewrite Nat2Z.inj_succ, Z.pow_succ_r in Hx by lia.
    destruct (Z_lt_le_dec x ((2 * start + 1) * 2 ^ Z.of_nat d)).
    + apply (IH _ H0). lia.
    + apply (IH _ H1). lia.
Qed.

(** The runes of one and two bytes, each one tried. *)
Lemma small_runes_ok : all_in_block char_tests_ok 11 0 = true.
Proof. vm_compute. reflexivity. Qed.

Lemma continuation_is_cont (x : Z) : is_cont (continuation x) = true.
Proof.
  unfold continuation.
  assert (H : 0 <= Z.land (byte_trunc x) 63 < 64).
  { change 63 with (Z.ones 6). rewrite Z.land_ones by lia.
    apply Z.mod_pos_bound. lia. }
  revert H. generalize (Z.land (byte_trunc x) 63). intros y Hy.
  apply (all_in_block_holds (fun y => is_cont (char_of (Z.lor 128 y))) 6 0);
    [vm_compute; reflexivity | cbn; lia].
Qed.

(** The width of an encoding does not depend on which continuation bytes
    fill its last places. *)
Lemma rune_width_3_of (c0 c1 c2 c2' : ascii) (rest rest' : string) :
  is_cont c2 = true -> is_cont c2' = true ->
  rune_width (String c0 (String c1 (String c2' rest'))) = 3%nat ->
  rune_width (String c0 (String c1 (String c2 rest))) = 3%nat.
Proof.
  intros H2 H2'. unfold rune_width. cbv zeta. rewrite H2, H2'.
  destruct (byte_of c0 <? 128); [discriminate|].
  destruct (between 194 223 c0); [destruct (is_cont c1); discriminate|].
  destruct (between 224 239 c0); [auto|].
  destruct (between 240 244 c0); [|discriminate].
  destruct rest'; [discriminate|].
  destruct (_ && _); discriminate.
Qed.

Lemma rune_width_4_of (c0 c1 c2 c3 c2' c3' : ascii) (rest rest' : string) :
  is_cont c2 = true -> is_cont c3 = true ->
  is_cont c2' = true -> is_cont c3' = true ->
  rune_width (String c0 (String c1 (String c2' (String c3' rest')))) = 4%nat ->
  rune_width (String c0 (String c1 (String c2 (String c3 rest)))) = 4%nat.
Proof.
  intros H2 H3 H2' H3'. unfold rune_width. cbv zeta.
  rewrite H2, H3, H2', H3'.
  destruct (byte_of c0 <? 128); [discriminate|].
  destruct (between 194 223 c0); [destruct (is_cont c1); discriminate|].
  destruct (between 224 239 c0); [destruct (_ && _); discriminate|].
  destruct (between 240 244 c0); [auto|discriminate].
Qed.

(** The first two bytes of the three-byte encodings, by the bits above
    the lowest six, and of the four-byte ones, by the bits above the
    lowest twelve: each pair tried. *)
Lemma heads3_ok :
  all_in_block
    (fun h =>
       negb ((32 <=? h) && negb ((864 <=? h) && (h <=? 895)))
       || Nat.eqb
            (rune_width
               (String (lead3 h) (String (continuation h)
                  (String (continuation 0) EmptyString)))) 3)
    10 0 = true.
Proof. vm_compute. reflexivity. Qed.

Lemma heads4_ok :
  all_in_block
    (fun h =>
       negb ((16 <=? h) && (h <=? 271))
       || Nat.eqb
            (rune_width
               (String (lead4 h) (String (continuation h)
                  (String (continuation 0)
                     (String (continuation 0) EmptyString))))) 4)
    9 0 = true.
Proof. vm_compute. reflexivity. Qed.

Lemma shiftr_6_range (r lo hi : Z) :
  lo * 64 <= r < hi * 64 -> lo <= Z.shiftr r 6 < hi.
Proof.
  intros H. rewrite Z.shiftr_div_pow2 by lia. change (2 ^ 6) with 64.
  split; [apply Z.div_le_lower_bound | apply Z.div_lt_upper_bound]; lia.
Qed.

Lemma shiftr_12_range (r lo hi : Z) :
  lo * 4096 <= r < hi * 4096 -> lo <= Z.shiftr r 12 < hi.
Proof.
  intros H. rewrite Z.shiftr_div_pow2 by lia. change (2 ^ 12) with 4096.
  split; [apply Z.div_le_lower_bound | apply Z.div_lt_upper_bound]; lia.
Qed.

(** A string valid from its first encoding on which nothing follows. *)
Lemma valid_utf8_one_rune (c0 : ascii) (rest : string) (k : nat) :
  rune_width (String c0 rest) = S k ->
  String.length rest = k ->
  valid_utf8 (String c0 rest) = true.
Proof.
  intros Hw Hlen. unfold valid_utf8. cbn [valid_utf8_from]. rewrite Hw.
  clear Hw. revert k Hlen.
  induction rest as [|b rest IH]; intros k Hlen; [reflexivity|].
  cbn [String.length] in Hlen. subst k. cbn [valid_utf8_from].
  apply IH. reflexivity.
Qed.

Lemma rune_width_lead (c0 : ascii) (rest : string) (k : nat) :
  rune_width (String c0 rest) = S (S k) -> (byte_of c0 <? 128) = false.
Proof.
  unfold rune_width. destruct (byte_of c0 <? 128); [discriminate|].
  reflexivity.
Qed.

(** Outside the runes of one and two bytes, [string(char)] is one valid
    encoding whose first byte is no ASCII byte. *)
Lemma long_runes (r : Z) :
  ~ (0 <= r < 2048) ->
  exists c0 rest,
    string_of_rune r = String c0 rest
    /\ (byte_of c0 <? 128) = false
    /\ valid_utf8 (String c0 rest) = true.
Proof.
  intros Hlong. unfold string_of_rune.
  replace ((0 <=? r) && (r <=? 127)) with false
    by (symmetry; apply andb_false_iff; rewrite Z.leb_gt, Z.leb_gt; lia).
  replace ((0 <=? r) && (r <=? 2047)) with false
    by (symmetry; apply andb_false_iff; rewrite Z.leb_gt, Z.leb_gt; lia).
  destruct ((r <? 0) || (MaxRune <? r)
            || ((surrogateMin <=? r) && (r <=? surrogateMax))) eqn:Hbad.
  { eexists _, _. split; [reflexivity|]. split; reflexivity. }
  apply orb_false_iff in Hbad as [Hbad Hsur].
  apply orb_false_iff in Hbad as [Hneg Hmax].
  apply Z.ltb_ge in Hneg, Hmax. unfold MaxRune in Hmax.
  assert (Hnot : ~ (55296 <= r <= 57343)).
  { intros [H1 H2]. apply andb_false_iff in Hsur as [H|H];
      apply Z.leb_gt in H; unfold surrogateMin, surrogateMax in H; lia. }
  pose proof (continuation_is_cont 0) as Hfill.
  destruct (Z.leb_spec r 65535) as [H3|H4].
  - unfold encode3. eexists _, _. split; [reflexivity|].
    replace (Z.shiftr r 12) with (Z.shiftr (Z.shiftr r 6) 6)
      by (rewrite Z.shiftr_shiftr by lia; reflexivity).
    fold (lead3 (Z.shiftr r 6)). fold (continuation (Z.shiftr r 6)).
    fold (continuation r).
    pose proof (shiftr_6_range r 32 1024 ltac:(lia)) as Hh.
    assert (Hh' : ~ (864 <= Z.shiftr r 6 <= 895)).
    { intros [H1 H2]. rewrite Z.shiftr_div_pow2 in H1, H2 by lia.
      change (2 ^ 6) with 64 in H1, H2.
      pose proof (Z.mul_div_le r 64 ltac:(lia)).
      pose proof (Z.mod_pos_bound r 64 ltac:(lia)).
      pose proof (Z.div_mod r 64 ltac:(lia)). lia. }
    pose proof (all_in_block_holds _ _ _ heads3_ok (Z.shiftr r 6)
                  ltac:(cbn; lia)) as Hhead.
    cbv beta in Hhead.
    replace ((32 <=? Z.shiftr r 6)
             && negb ((864 <=? Z.shiftr r 6) && (Z.shiftr r 6 <=? 895)))
      with true in Hhead.
    2:{ symmetry. apply andb_true_iff. split; [apply Z.leb_le; lia|].
        apply negb_true_iff, andb_false_iff.
        rewrite Z.leb_gt, Z.leb_gt. lia. }
    cbn [negb orb] in Hhead. apply Nat.eqb_eq in Hhead.
    pose proof (rune_width_3_of _ _ (continuation r) _ EmptyString _
                  (continuation_is_cont r) Hfill Hhead) as Hw.
    split; [exact (rune_width_lead _ _ _ Hw)|].
    exact (valid_utf8_one_rune _ _ _ Hw eq_refl).
  - eexists _, _. split; [reflexivity|].
    replace (Z.shiftr r 18) with (Z.shiftr (Z.shiftr r 12) 6)
      by (rewrite Z.shiftr_shiftr by lia; reflexivity).
    fold (lead4 (Z.shiftr r 12)). fold (continuation (Z.shiftr r 12)).
    fold (continuation (Z.shiftr r 6)). fold (continuation r).
    pose proof (shiftr_12_range r 16 272 ltac:(lia)) as Hh.
    pose proof (all_in_block_holds _ _ _ heads4_ok (Z.shiftr r 12)
                  ltac:(cbn; lia)) as Hhead.
    cbv beta in Hhead.
    replace ((16 <=? Z.shiftr r 12) && (Z.shiftr r 12 <=? 271))
      with true in Hhead
      by (symmetry; apply andb_true_iff; rewrite !Z.leb_le; lia).
    cbn [negb orb] in Hhead. apply Nat.eqb_eq in Hhead.
    pose proof (rune_width_4_of _ _ (continuation (Z.shiftr r 6))
                  (continuation r) _ _ EmptyString _
                  (continuation_is_cont _) (continuation_is_cont r)
                  Hfill Hfill Hhead) as Hw.
    split; [exact (rune_width_lead _ _ _ Hw)|].
    exact (valid_utf8_one_rune _ _ _ Hw eq_refl).
Qed.

Lemma not_ascii_differs (c d : ascii) :
  (byte_of c <? 128) = false -> (byte_of d <? 128) = true ->
  Ascii.eqb c d = false.
Proof.
  intros Hc Hd. apply Ascii.eqb_neq. intros ->. congruence.
Qed.

Lemma char_tests_hold (r : Z) : char_tests_ok r = true.
Proof.
  destruct (Z_lt_le_dec r 0) as [Hneg|Hpos];
    [|destruct (Z_lt_le_dec r 2048) as [Hsmall|Hlarge]].
  2:{ apply (all_in_block_holds _ _ _ small_runes_ok). cbn. lia. }
  all: destruct (long_runes r ltac:(lia)) as (c0 & rest & Heq & Hlead & Hvalid);
    unfold char_tests_ok; rewrite Heq, Hvalid;
    replace (r =? 32) with false by (symmetry; apply Z.eqb_neq; lia);
    replace (r =? 60) with false by (symmetry; apply Z.eqb_neq; lia);
    cbn [String.eqb starts_with];
    rewrite (not_ascii_differs c0 " " Hlead eq_refl),
      (not_ascii_differs c0 "<" Hlead eq_refl);
    rewrite Ascii.eqb_sym, (not_ascii_differs c0 "<" Hlead eq_refl);
    reflexivity.
Qed.

(** X15. A typed space is not forwarded (the key path sends it); a typed
    less-than sign is forwarded as [<LT>]; every other character is
    forwarded once, as its UTF-8 text, which never begins with the
    less-than sign that opens a key token.  The text of every rune,
    valid code point or not, is valid UTF-8. *)
Theorem typed_characters_are_escaped (char : Z) :
  (char = 32 -> CharEventHandler char = [])
  /\ (char = 60 -> CharEventHandler char = [Input.NvimInput "<LT>"])
  /\ (char <> 32 -> char <> 60 ->
      CharEventHandler char = [Input.NvimInput (string_of_rune char)]
      /\ starts_with "<" (string_of_rune char) = false)
  /\ valid_utf8 (string_of_rune char) = true.
Proof.
  pose proof (char_tests_hold char) as H. unfold char_tests_ok in H.
  apply andb_prop in H as [H Hvalid]. apply andb_prop in H as [H Hstart].
  apply andb_prop in H as [Hspace Hlt].
  apply Bool.eqb_prop in Hspace, Hlt. unfold CharEventHandler.
  rewrite Hspace, Hlt.
  split; [intros ->; reflexivity|]. split; [intros ->; reflexivity|].
  split; [|exact Hvalid].
  intros H32 H60. apply Z.eqb_neq in H32, H60. rewrite H32, H60 in *.
  cbn in Hstart. apply negb_true_iff in Hstart. auto.
Qed.

End CharFacts.
